(** * NavigationScenesReducer: reconciliation of navigation scenes

    A shallow embedding of
    [Libraries/NavigationExperimental/Reducer/NavigationScenesReducer.js]
    and the properties of its scene list.

    Conventions of the embedding.

    - A JavaScript string is a [string]; [String.length] is [.length] and
      [String.compare] is the code-unit order behind [<] and [>].
    - A [number] used as an index is an integer of [Z].
    - Routes and navigation states are only read by the reducer (through
      [.key] and [.children]) and compared by reference.  They are addresses
      into a read-only heap, given by the two accessors [route_key] and
      [children]; [===] on them is equality of addresses.
    - Scenes and arrays are created by the reducer.  A scene (an array) is an
      immutable value tagged with the address it was allocated at, and the
      reducer threads the next free address.
    - [invariant(cond, format)] throws when [cond] is false: the reducer
      returns a [Completion], either [Normal] or [Throw] with the error and
      its message as [invariant] of fbjs formats it. *)

From Stdlib Require Import List String Ascii ZArith NArith Lia Bool Arith.
From Stdlib Require Import Permutation Sorted RelationClasses ListDec.
From Stdlib Require Import DecimalString.
Import ListNotations.

Set Implicit Arguments.

(** ** Addresses and objects *)

Definition ref := nat.

(** A route and a navigation state are addresses of heap objects. *)
Definition NavigationRoute := ref.
Definition NavigationState := ref.

(** [NavigationScene]: [{index, isStale, key, route}], at address
    [scene_ref]. *)
Record NavigationScene : Type := mkScene {
  scene_ref : ref;
  index : Z;
  isStale : bool;
  key : string;
  route : NavigationRoute
}.

(** [Array<NavigationScene>], at address [array_ref]. *)
Record SceneArray : Type := mkArray {
  array_ref : ref;
  elems : list NavigationScene
}.

(** ** Abrupt completion and allocation *)

(** The error that [invariant] of fbjs throws: an [Error] whose name is
    [Invariant Violation], with its message. *)
Inductive Error : Type :=
| InvariantViolation (message : string).

Inductive Completion (A : Type) : Type :=
| Normal (a : A)
| Throw (e : Error).

Arguments Throw {A} e.

(** A computation reads the next free address and returns either a value with
    the new next free address, or throws. *)
Definition M (A : Type) : Type := ref -> Completion (A * ref).

Definition ret {A} (a : A) : M A := fun next => Normal (a, next).

Definition bind {A B} (m : M A) (f : A -> M B) : M B :=
  fun next =>
    match m next with
    | Normal (a, next') => f a next'
    | Throw e => Throw e
    end.

Declare Scope reducer_scope.
Delimit Scope reducer_scope with reducer.
Notation "x <- m ;; k" := (bind m (fun x => k))
  (at level 61, m at next level, right associativity) : reducer_scope.
Notation "' p <- m ;; k" := (bind m (fun p => k))
  (at level 61, p pattern, m at next level, right associativity) : reducer_scope.
Notation "m ;;; k" := (bind m (fun _ => k))
  (at level 61, right associativity) : reducer_scope.
Local Open Scope reducer_scope.

(** [format.replace(/%s/g, function() { return args[argIndex++]; })] in
    [invariant] of fbjs, for a call that passes nothing after the format, as
    the reducer does: every [%s] of the format, from left to right, becomes
    the text of [undefined]. *)
Fixpoint fbjsFormat (format : string) : string :=
  match format with
  | EmptyString => EmptyString
  | String c rest =>
      match rest with
      | EmptyString => String c EmptyString
      | String d rest' =>
          if Ascii.eqb c "%" && Ascii.eqb d "s"
          then String.append "undefined" (fbjsFormat rest')
          else String c (fbjsFormat rest)
      end
  end.

(** [invariant(condition, format)] of fbjs. *)
Definition invariant (cond : bool) (format : string) : M unit :=
  if cond then ret tt
  else fun _ => Throw (InvariantViolation (fbjsFormat format)).

(** The object literal [{index, isStale, key, route}]: a new scene object. *)
Definition newScene (index : Z) (isStale : bool) (key : string)
  (route : NavigationRoute) : M NavigationScene :=
  fun next => Normal (mkScene next index isStale key route, S next).

(** The array literal [[]] that is filled with [elems] afterwards. *)
Definition newArray (elems : list NavigationScene) : M SceneArray :=
  fun next => Normal (mkArray next elems, S next).

(** [array.forEach((x, index) => ...)] with a callback that updates the
    variables [s] it closes over and may throw. *)
Fixpoint forEachM {A S : Type} (f : S -> A -> nat -> M S) (l : list A)
  (index : nat) (s : S) : M S :=
  match l with
  | [] => ret s
  | x :: l' => s' <- f s x index ;; forEachM f l' (Datatypes.S index) s'
  end.

(** ** [Map] and [Set] *)

(** A JavaScript [Map] with string keys: entries in insertion order. [set] on
    a key already present overwrites the value in place, [forEach] visits the
    entries in order. *)
Module JSMap.
Section Ops.
Variable V : Type.

Definition t := list (string * V).

Definition empty : t := [].

Fixpoint get (m : t) (k : string) : option V :=
  match m with
  | [] => None
  | (k', v) :: m' => if String.eqb k' k then Some v else get m' k
  end.

Definition has (m : t) (k : string) : bool :=
  match get m k with Some _ => true | None => false end.

Fixpoint set (m : t) (k : string) (v : V) : t :=
  match m with
  | [] => [(k, v)]
  | (k', v') :: m' =>
      if String.eqb k' k then (k, v) :: m' else (k', v') :: set m' k v
  end.

Fixpoint delete (m : t) (k : string) : t :=
  match m with
  | [] => []
  | (k', v') :: m' =>
      if String.eqb k' k then m' else (k', v') :: delete m' k
  end.

Definition keys (m : t) : list string := map fst m.

(** The values in [forEach] order. *)
Definition values (m : t) : list V := map snd m.

End Ops.
Arguments empty {V}.
End JSMap.

(** A JavaScript [Set] of strings. *)
Module JSSet.

Definition t := list string.

Definition empty : t := [].

Definition has (s : t) (k : string) : bool :=
  existsb (String.eqb k) s.

Definition add (s : t) (k : string) : t :=
  if has s k then s else s ++ [k].

End JSSet.

(** ** [Array.prototype.sort] *)

(** [sort] is a built-in.  It is modelled by an insertion sort that asks the
    comparator whether the element goes after ([> 0]) the one it meets.
    [sort_unique] and [reducer_order_canonical] below show that on the lists
    the reducer sorts every arrangement that respects the comparator is this
    one, so the choice of the algorithm does not show. *)
Section Sort.
Variable A : Type.
Variable comparefn : A -> A -> Z.

Fixpoint sort_insert (x : A) (l : list A) : list A :=
  match l with
  | [] => [x]
  | y :: l' =>
      if (comparefn x y >? 0)%Z then y :: sort_insert x l' else x :: y :: l'
  end.

Fixpoint sort (l : list A) : list A :=
  match l with
  | [] => []
  | x :: l' => sort_insert x (sort l')
  end.

(** The comparator lets [x] stand before [y]. *)
Definition notAfter (x y : A) : Prop := (comparefn x y <= 0)%Z.

End Sort.

(** ** The module *)

Definition SCENE_KEY_PREFIX : string := "scene_".

(** The double quote character, and the decimal text of an array position
    as a template literal prints it. *)
Definition doubleQuote : string := String (ascii_of_nat 34) EmptyString.

Definition positionText (index : nat) : string :=
  NilZero.string_of_uint (Nat.to_uint index).

(** Lines 104-105, the message handed to [invariant]: the template literal
    with [index] and [key] put in, and the string added to it. *)
Definition conflictFormat (index : nat) (key : string) : string :=
  String.append "navigationState.children["
    (String.append (positionText index)
       (String.append "].key "
          (String.append doubleQuote
             (String.append key
                (String.append doubleQuote
                   (String.append " conflicts with" "another child!")))))).

(** A text without the character [%], and a text in which [%s] occurs. *)
Fixpoint noPercent (s : string) : bool :=
  match s with
  | EmptyString => true
  | String c rest => negb (Ascii.eqb c "%") && noPercent rest
  end.

Fixpoint containsFormatSpec (s : string) : bool :=
  match s with
  | EmptyString => false
  | String c rest =>
      match rest with
      | EmptyString => false
      | String d _ =>
          (Ascii.eqb c "%" && Ascii.eqb d "s") || containsFormatSpec rest
      end
  end.

(** [one > two] on strings. *)
Definition string_gt (one two : string) : bool :=
  match String.compare one two with Gt => true | _ => false end.

(** Helper function to compare route keys (e.g. "9", "11"). *)
Definition compareKey (one two : string) : Z :=
  let delta :=
    (Z.of_nat (String.length one) - Z.of_nat (String.length two))%Z in
  if (delta >? 0)%Z then 1%Z
  else if (delta <? 0)%Z then (-1)%Z
  else if string_gt one two then 1%Z else (-1)%Z.

(** Helper function to sort scenes based on their index and view key. *)
Definition compareScenes (one two : NavigationScene) : Z :=
  if (index one >? index two)%Z then 1%Z
  else if (index one <? index two)%Z then (-1)%Z
  else compareKey (key one) (key two).

(** ** The order of the specification *)

(** The comparator of the specification: shorter keys first, keys of one
    length in lexicographic order. *)
Definition keyBefore (one two : string) : Prop :=
  String.length one < String.length two \/
  (String.length one = String.length two /\ String.compare one two = Lt).

(** Ascending by index, ties broken by [keyBefore]. *)
Definition sceneBefore (one two : NavigationScene) : Prop :=
  (index one < index two)%Z \/
  (index one = index two /\ keyBefore (key one) (key two)).

(** [compareScenes] as a strict total order on the scenes of a list: of two
    scenes at different positions exactly one sorts before the other, and
    "sorts before" is transitive. *)
Definition sortsBefore (one two : NavigationScene) : Prop :=
  (compareScenes one two < 0)%Z.

Definition strictTotalOrderOn (l : list NavigationScene) : Prop :=
  (forall i j x y,
      i <> j -> nth_error l i = Some x -> nth_error l j = Some y ->
      (sortsBefore x y \/ sortsBefore y x) /\
      ~ (sortsBefore x y /\ sortsBefore y x)) /\
  (forall x y z,
      In x l -> In y l -> In z l ->
      sortsBefore x y -> sortsBefore y z -> sortsBefore x z).

(** ** A heap for the examples *)

(** Routes 1 and 4 have the key "a", route 2 the key "b", route 3 the key
    "c". *)
Definition example_route_key (route : NavigationRoute) : string :=
  match route with
  | 1 => "a"
  | 2 => "b"
  | 3 => "c"
  | 4 => "a"
  | _ => ""
  end.

(** State 10 has the children a, b; 11 has b; 12 has b, c; 13 has two
    children with the key "a"; 14 has a; every other state has none. *)
Definition example_children (state : NavigationState)
  : list NavigationRoute :=
  match state with
  | 10 => [1; 2]
  | 11 => [2]
  | 12 => [2; 3]
  | 13 => [1; 4]
  | 14 => [1]
  | _ => []
  end.

(** ** The reducer *)

(** [Map<string, NavigationScene>]. *)
Abbreviation SceneMap := (JSMap.t NavigationScene).

Section Reducer.

(** The heap of routes and states: [route.key] and [state.children]. *)
Variable route_key : NavigationRoute -> string.
Variable children : NavigationState -> list NavigationRoute.

Definition areScenesShallowEqual (one two : NavigationScene) : bool :=
  String.eqb (key one) (key two) &&
  Z.eqb (index one) (index two) &&
  Bool.eqb (isStale one) (isStale two) &&
  Nat.eqb (route one) (route two) &&
  String.eqb (route_key (route one)) (route_key (route two)).

(** [prevState === nextState], where [prevState] may be [null] or
    [undefined] ([None]). *)
Definition same_state (prevState : option NavigationState)
  (nextState : NavigationState) : bool :=
  match prevState with
  | Some p => Nat.eqb p nextState
  | None => false
  end.

(** The scene key of a route: [SCENE_KEY_PREFIX + route.key]. *)
Definition sceneKey (route : NavigationRoute) : string :=
  String.append SCENE_KEY_PREFIX (route_key route).

(** Lines 85-91, the callback of [scenes.forEach]: it updates [prevScenes]
    and [staleScenes]. *)
Definition populateScene (maps : SceneMap * SceneMap) (scene : NavigationScene)
  : SceneMap * SceneMap :=
  let '(prevScenes, staleScenes) := maps in
  let key := key scene in
  let staleScenes :=
    if isStale scene then JSMap.set staleScenes key scene else staleScenes in
  (JSMap.set prevScenes key scene, staleScenes).

(** Lines 94-115, the callback of [nextState.children.forEach]: it updates
    [nextKeys], [staleScenes] and [freshScenes]. *)
Definition visitNextChild (vars : JSSet.t * SceneMap * SceneMap)
  (route : NavigationRoute) (index : nat) : M (JSSet.t * SceneMap * SceneMap) :=
  let '(nextKeys, staleScenes, freshScenes) := vars in
  let key := sceneKey route in
  scene <- newScene (Z.of_nat index) false key route ;;
  invariant (negb (JSSet.has nextKeys key)) (conflictFormat index key) ;;;
  let nextKeys := JSSet.add nextKeys key in
  let staleScenes :=
    if JSMap.has staleScenes key then JSMap.delete staleScenes key
    else staleScenes in
  ret (nextKeys, staleScenes, JSMap.set freshScenes key scene).

(** Lines 119-130, the callback of [prevState.children.forEach]: it updates
    [staleScenes]. *)
Definition visitPrevChild (freshScenes : SceneMap) (staleScenes : SceneMap)
  (route : NavigationRoute) (index : nat) : M SceneMap :=
  let key := sceneKey route in
  if JSMap.has freshScenes key then ret staleScenes
  else
    scene <- newScene (Z.of_nat index) true key route ;;
    ret (JSMap.set staleScenes key scene).

(** Lines 135-145: the scene that [mergeScene] pushes on [nextScenes]. *)
Definition mergeScene (prevScenes : SceneMap) (nextScene : NavigationScene)
  : NavigationScene :=
  let key := key nextScene in
  let prevScene :=
    if JSMap.has prevScenes key then JSMap.get prevScenes key else None in
  match prevScene with
  | Some prevScene =>
      if areScenesShallowEqual prevScene nextScene then prevScene
      else nextScene
  | None => nextScene
  end.

(** The three maps of the reducer. *)
Record SceneMaps : Type := mkMaps {
  prevScenes : SceneMap;
  freshScenes : SceneMap;
  staleScenes : SceneMap
}.

(** Lines 80-131: the maps when the merge starts. *)
Definition classifyScenes (scenes : list NavigationScene)
  (nextState : NavigationState) (prevState : option NavigationState)
  : M SceneMaps :=
  let '(prevScenes, staleScenes) :=
    fold_left populateScene scenes (JSMap.empty, JSMap.empty) in
  '(_, staleScenes, freshScenes) <-
    forEachM visitNextChild (children nextState) 0
      (JSSet.empty, staleScenes, JSMap.empty) ;;
  staleScenes <-
    match prevState with
    | Some prevState =>
        forEachM (visitPrevChild freshScenes) (children prevState) 0 staleScenes
    | None => ret staleScenes
    end ;;
  ret (mkMaps prevScenes freshScenes staleScenes).

(** Lines 147-148: the scenes pushed on [nextScenes], the stale ones first. *)
Definition mergeScenes (maps : SceneMaps) : list NavigationScene :=
  map (mergeScene (prevScenes maps)) (JSMap.values (staleScenes maps)) ++
  map (mergeScene (prevScenes maps)) (JSMap.values (freshScenes maps)).

Definition NavigationScenesReducer (scenes : SceneArray)
  (nextState : NavigationState) (prevState : option NavigationState)
  : M SceneArray :=
  if same_state prevState nextState then ret scenes
  else
    maps <- classifyScenes (elems scenes) nextState prevState ;;
    nextScenes <- newArray (mergeScenes maps) ;;
    ret (mkArray (array_ref nextScenes)
           (sort compareScenes (elems nextScenes))).

(** The entries that the loop over [nextState.children] appends to an empty
    [freshScenes] when the scene keys of the routes [l] are pairwise distinct:
    one new scene per route, allocated from [next] on, with the position of
    the route as its index. *)
Fixpoint freshEntries (next : ref) (index : nat) (l : list NavigationRoute)
  : SceneMap :=
  match l with
  | [] => []
  | route :: l' =>
      (sceneKey route,
       mkScene next (Z.of_nat index) false (sceneKey route) route)
        :: freshEntries (S next) (S index) l'
  end.

(** Every entry of a map of stale scenes is a stale scene under its own
    key. *)
Definition staleEntries (m : SceneMap) : Prop :=
  forall k s, In (k, s) m -> key s = k /\ isStale s = true.


(** ** Keys that are decimal numerals *)

(** The characters "0" to "9". *)
Definition isDigit (c : ascii) : bool :=
  (48 <=? nat_of_ascii c) && (nat_of_ascii c <=? 57).

Definition digitValue (c : ascii) : nat := nat_of_ascii c - 48.

Fixpoint allDigits (s : string) : bool :=
  match s with
  | EmptyString => true
  | String c s' => isDigit c && allDigits s'
  end.

(** A decimal numeral without leading zeros: "0", "7", "42", ... *)
Definition isNumeral (s : string) : bool :=
  match s with
  | EmptyString => false
  | String c s' =>
      allDigits s && (negb (Ascii.eqb c "0") || String.eqb s' "")
  end.

(** The number that a string of digits writes. *)
Fixpoint numeralValue (s : string) : nat :=
  match s with
  | EmptyString => 0
  | String c s' => digitValue c * 10 ^ String.length s' + numeralValue s'
  end.

(** The example heap with two more states, 20 and 21, which both have the
    children a, b. *)
Definition example_children_again (state : NavigationState)
  : list NavigationRoute :=
  match state with
  | 20 => [1; 2]
  | 21 => [1; 2]
  | _ => example_children state
  end.

(** * Properties *)

Unset Implicit Arguments.

(** ** The order of keys and scenes *)

Lemma ascii_compare_refl (a : ascii) : Ascii.compare a a = Eq.
Proof. unfold Ascii.compare. apply N.compare_refl. Qed.

Lemma ascii_compare_lt_trans (a b c : ascii) :
  Ascii.compare a b = Lt -> Ascii.compare b c = Lt -> Ascii.compare a c = Lt.
Proof.
  unfold Ascii.compare. rewrite !N.compare_lt_iff. apply N.lt_trans.
Qed.

Lemma string_compare_refl (s : string) : String.compare s s = Eq.
Proof.
  induction s as [|c s IH]; simpl; [reflexivity |].
  now rewrite ascii_compare_refl.
Qed.

Lemma string_compare_lt_trans (a b c : string) :
  String.compare a b = Lt -> String.compare b c = Lt ->
  String.compare a c = Lt.
Proof.
  revert b c. induction a as [|x a IH]; intros [|y b] [|z c]; simpl;
    try discriminate; auto.
  destruct (Ascii.compare x y) eqn:Hxy; try discriminate.
  - apply Ascii.compare_eq_iff in Hxy. subst y.
    destruct (Ascii.compare x z) eqn:Hxz; try discriminate; auto.
    apply IH.
  - intros _. destruct (Ascii.compare y z) eqn:Hyz; try discriminate.
    + apply Ascii.compare_eq_iff in Hyz. subst z. now rewrite Hxy.
    + intros _. now rewrite (ascii_compare_lt_trans _ _ _ Hxy Hyz).
Qed.

Lemma string_compare_gt_lt (a b : string) :
  String.compare a b = Gt <-> String.compare b a = Lt.
Proof.
  rewrite (String.compare_antisym b a).
  destruct (String.compare a b); simpl; split; intros H;
    try reflexivity; discriminate H.
Qed.

Lemma keyBefore_irrefl (k : string) : ~ keyBefore k k.
Proof.
  intros [H | [_ H]]; [lia | rewrite string_compare_refl in H; discriminate].
Qed.

Lemma keyBefore_trans (a b c : string) :
  keyBefore a b -> keyBefore b c -> keyBefore a c.
Proof.
  unfold keyBefore. intros [H1 | [H1 H1']] [H2 | [H2 H2']];
    try (left; lia).
  right. split; [lia | eapply string_compare_lt_trans; eauto].
Qed.

Lemma keyBefore_asym (a b : string) : keyBefore a b -> ~ keyBefore b a.
Proof.
  intros H1 H2. exact (keyBefore_irrefl _ (keyBefore_trans _ _ _ H1 H2)).
Qed.

Lemma keyBefore_total (a b : string) :
  keyBefore a b \/ a = b \/ keyBefore b a.
Proof.
  unfold keyBefore.
  destruct (Nat.lt_trichotomy (String.length a) (String.length b))
    as [H | [H | H]]; auto.
  destruct (String.compare a b) eqn:Hc.
  - apply String.compare_eq_iff in Hc. auto.
  - auto.
  - apply string_compare_gt_lt in Hc. auto.
Qed.

(** [compareKey] returns [1] or [-1], and [1] exactly when the second key
    comes first. *)
Lemma compareKey_cases (one two : string) :
  compareKey one two = 1%Z \/ compareKey one two = (-1)%Z.
Proof.
  unfold compareKey.
  destruct (_ >? 0)%Z; auto. destruct (_ <? 0)%Z; auto.
  destruct (string_gt one two); auto.
Qed.

Lemma compareKey_gt (one two : string) :
  compareKey one two = 1%Z <-> keyBefore two one.
Proof.
  unfold compareKey, keyBefore, string_gt.
  destruct (Z.gtb_spec (Z.of_nat (String.length one) -
                        Z.of_nat (String.length two)) 0) as [Hg | Hg].
  - split; auto. intros _. left. lia.
  - destruct (Z.ltb_spec (Z.of_nat (String.length one) -
                          Z.of_nat (String.length two)) 0) as [Hl | Hl].
    + split; [discriminate |]. intros [H | [H _]]; lia.
    + destruct (String.compare one two) eqn:Hc.
      * split; [discriminate |]. intros [H | [_ H]]; [lia |].
        apply String.compare_eq_iff in Hc. subst.
        rewrite string_compare_refl in H. discriminate.
      * split; [discriminate |]. intros [H | [_ H]]; [lia |].
        apply string_compare_gt_lt in H. congruence.
      * split; auto. intros _. right. split; [lia |].
        now apply string_compare_gt_lt.
Qed.

Lemma compareKey_lt (one two : string) :
  compareKey one two = (-1)%Z <-> keyBefore one two \/ one = two.
Proof.
  destruct (compareKey_cases one two) as [H | H]; rewrite H.
  - apply compareKey_gt in H. split; [discriminate |].
    intros [H' | ->]; exfalso.
    + exact (keyBefore_asym _ _ H H').
    + exact (keyBefore_irrefl _ H).
  - split; auto. intros _.
    destruct (keyBefore_total one two) as [H' | [H' | H']]; auto.
    apply compareKey_gt in H'. congruence.
Qed.

Lemma compareKey_refl (k : string) : compareKey k k = (-1)%Z.
Proof. apply compareKey_lt. auto. Qed.

Lemma sceneBefore_irrefl (s : NavigationScene) : ~ sceneBefore s s.
Proof.
  intros [H | [_ H]]; [lia | exact (keyBefore_irrefl _ H)].
Qed.

Lemma sceneBefore_trans (a b c : NavigationScene) :
  sceneBefore a b -> sceneBefore b c -> sceneBefore a c.
Proof.
  unfold sceneBefore. intros [H1 | [H1 H1']] [H2 | [H2 H2']];
    try (left; lia).
  right. split; [lia | eapply keyBefore_trans; eauto].
Qed.

Lemma sceneBefore_asym (a b : NavigationScene) :
  sceneBefore a b -> ~ sceneBefore b a.
Proof.
  intros H1 H2. exact (sceneBefore_irrefl _ (sceneBefore_trans _ _ _ H1 H2)).
Qed.

Lemma compareScenes_cases (one two : NavigationScene) :
  compareScenes one two = 1%Z \/ compareScenes one two = (-1)%Z.
Proof.
  unfold compareScenes.
  destruct (_ >? _)%Z; auto. destruct (_ <? _)%Z; auto.
  apply compareKey_cases.
Qed.

Lemma compareScenes_gt (one two : NavigationScene) :
  compareScenes one two = 1%Z <-> sceneBefore two one.
Proof.
  unfold compareScenes, sceneBefore.
  destruct (Z.gtb_spec (index one) (index two)) as [Hg | Hg].
  - split; intros _; [left; lia | reflexivity].
  - destruct (Z.ltb_spec (index one) (index two)) as [Hl | Hl].
    + split; [discriminate |]. intros [H | [H _]]; lia.
    + rewrite compareKey_gt. split; [intros H; right; split; [lia | exact H] |].
      intros [H | [_ H]]; [lia | exact H].
Qed.

Lemma compareScenes_lt (one two : NavigationScene) :
  compareScenes one two = (-1)%Z <->
  sceneBefore one two \/ (index one = index two /\ key one = key two).
Proof.
  unfold compareScenes, sceneBefore.
  destruct (Z.gtb_spec (index one) (index two)) as [Hg | Hg].
  - split; [discriminate |]. intros [[H | [H _]] | [H _]]; lia.
  - destruct (Z.ltb_spec (index one) (index two)) as [Hl | Hl].
    + split; intros _; [left; left; lia | reflexivity].
    + rewrite compareKey_lt. split.
      * intros [H | H]; [left; right | right]; (split; [lia | exact H]).
      * intros [[H | [_ H]] | [_ H]]; [lia | left; exact H | right; exact H].
Qed.

(** ** Sorting *)

Section SortFacts.
Variable A : Type.
Variable comparefn : A -> A -> Z.

Hypothesis comparefn_total :
  forall x y, (comparefn x y > 0)%Z -> (comparefn y x <= 0)%Z.

Lemma sort_insert_perm (x : A) (l : list A) :
  Permutation (x :: l) (sort_insert comparefn x l).
Proof.
  induction l as [|y l IH]; simpl; [reflexivity |].
  destruct (comparefn x y >? 0)%Z; [| reflexivity].
  rewrite perm_swap. now apply perm_skip.
Qed.

Lemma sort_perm (l : list A) : Permutation l (sort comparefn l).
Proof.
  induction l as [|x l IH]; simpl; [reflexivity |].
  rewrite <- sort_insert_perm. now apply perm_skip.
Qed.

Lemma sort_insert_hd (x y : A) (l : list A) :
  notAfter comparefn y x -> HdRel (notAfter comparefn) y l ->
  HdRel (notAfter comparefn) y (sort_insert comparefn x l).
Proof.
  intros Hyx Hl. destruct l as [|z l]; simpl.
  - now constructor.
  - inversion Hl; subst. destruct (comparefn x z >? 0)%Z; now constructor.
Qed.

Lemma sort_insert_sorted (x : A) (l : list A) :
  Sorted (notAfter comparefn) l ->
  Sorted (notAfter comparefn) (sort_insert comparefn x l).
Proof.
  induction 1 as [|y l Hs IH Hhd]; simpl.
  - repeat constructor.
  - destruct (Z.gtb_spec (comparefn x y) 0) as [Hg | Hg].
    + constructor; [exact IH |].
      apply sort_insert_hd; [apply comparefn_total; lia | exact Hhd].
    + constructor; [now constructor |]. constructor. exact Hg.
Qed.

Lemma sort_sorted (l : list A) : Sorted (notAfter comparefn) (sort comparefn l).
Proof.
  induction l as [|x l IH]; simpl; [constructor |].
  now apply sort_insert_sorted.
Qed.

End SortFacts.

(** Two arrangements of the same elements in a strict order are equal. *)
Lemma StronglySorted_perm_eq (A : Type) (R : A -> A -> Prop) :
  (forall x, ~ R x x) -> (forall x y z, R x y -> R y z -> R x z) ->
  forall l l' : list A,
    StronglySorted R l -> StronglySorted R l' -> Permutation l l' -> l = l'.
Proof.
  intros Hirr Htr. induction l as [|a l IH]; intros l' Hl Hl' Hp.
  - apply Permutation_nil in Hp. now subst.
  - destruct l' as [|b l'].
    + symmetry in Hp. apply Permutation_nil in Hp. discriminate.
    + apply StronglySorted_inv in Hl. destruct Hl as [Hl Ha].
      apply StronglySorted_inv in Hl'. destruct Hl' as [Hl' Hb].
      rewrite Forall_forall in Ha, Hb.
      assert (a = b) as ->.
      { assert (Hin : In a (b :: l'))
          by (eapply Permutation_in; [exact Hp | now left]).
        assert (Hin' : In b (a :: l))
          by (eapply Permutation_in; [symmetry; exact Hp | now left]).
        destruct Hin as [-> | Hin]; [reflexivity |].
        destruct Hin' as [-> | Hin']; [reflexivity |].
        exfalso. apply (Hirr a). eapply Htr; [apply Ha | apply Hb]; eauto. }
      f_equal. apply IH; auto. eapply Permutation_cons_inv; eauto.
Qed.

(** The comparator of scenes places one of any two scenes not after the
    other, and "not after" is transitive. *)
Lemma compareScenes_total (x y : NavigationScene) :
  (compareScenes x y > 0)%Z -> (compareScenes y x <= 0)%Z.
Proof.
  intros H. destruct (compareScenes_cases x y) as [Hxy | Hxy]; [| lia].
  apply compareScenes_gt in Hxy.
  assert (compareScenes y x = (-1)%Z) as -> by (apply compareScenes_lt; auto).
  lia.
Qed.

Lemma notAfter_scenes (x y : NavigationScene) :
  notAfter compareScenes x y <->
  sceneBefore x y \/ (index x = index y /\ key x = key y).
Proof.
  unfold notAfter. rewrite <- compareScenes_lt.
  destruct (compareScenes_cases x y) as [-> | ->]; split; intros; lia.
Qed.

Lemma notAfter_scenes_trans (x y z : NavigationScene) :
  notAfter compareScenes x y -> notAfter compareScenes y z ->
  notAfter compareScenes x z.
Proof.
  rewrite !notAfter_scenes.
  intros [H1 | [H1 H1']] [H2 | [H2 H2']].
  - left. eapply sceneBefore_trans; eauto.
  - left. unfold sceneBefore in *. rewrite <- H2, <- H2'. exact H1.
  - left. unfold sceneBefore in *. rewrite H1, H1'. exact H2.
  - right. split; congruence.
Qed.

Lemma sort_scenes_StronglySorted (l : list NavigationScene) :
  StronglySorted (notAfter compareScenes) (sort compareScenes l).
Proof.
  apply Sorted_StronglySorted.
  - intros x y z. apply notAfter_scenes_trans.
  - apply sort_sorted. apply compareScenes_total.
Qed.

(** On scenes with pairwise distinct keys "not after" is "before". *)
Lemma StronglySorted_notAfter_before (l : list NavigationScene) :
  NoDup (map key l) ->
  StronglySorted (notAfter compareScenes) l ->
  StronglySorted sceneBefore l.
Proof.
  induction l as [|x l IH]; intros Hnd Hs; [constructor |].
  inversion Hnd as [|? ? Hnin Hnd']; subst.
  apply StronglySorted_inv in Hs. destruct Hs as [Hs Hx].
  constructor; [now apply IH |].
  rewrite Forall_forall in *. intros y Hy.
  destruct (proj1 (notAfter_scenes x y) (Hx y Hy)) as [H | [_ H]]; [exact H |].
  exfalso. apply Hnin. rewrite H. now apply in_map.
Qed.

(** [sort] on scenes with pairwise distinct keys: whatever the algorithm, an
    arrangement of the scenes that no pair of which the comparator would swap
    is the one computed here. *)
Lemma sort_unique (l l' : list NavigationScene) :
  NoDup (map key l) ->
  Permutation l l' ->
  StronglySorted (notAfter compareScenes) l' ->
  l' = sort compareScenes l.
Proof.
  intros Hnd Hp Hs.
  assert (Hp' : Permutation l (sort compareScenes l)) by apply sort_perm.
  apply (StronglySorted_perm_eq _ _ sceneBefore_irrefl sceneBefore_trans).
  - apply StronglySorted_notAfter_before; [| exact Hs].
    eapply Permutation_NoDup; [| exact Hnd]. now apply Permutation_map.
  - apply StronglySorted_notAfter_before; [| apply sort_scenes_StronglySorted].
    eapply Permutation_NoDup; [| exact Hnd]. now apply Permutation_map.
  - now rewrite <- Hp, <- Hp'.
Qed.

(** ** [Map] and [Set] operations *)

Section JSMapFacts.
Variable V : Type.
Implicit Types (m : JSMap.t V) (k : string) (v : V) (e : string * V).

Lemma JSMap_get_set m k v k' :
  JSMap.get (JSMap.set m k v) k' =
  if String.eqb k k' then Some v else JSMap.get m k'.
Proof.
  induction m as [|[k0 v0] m IH]; simpl.
  - reflexivity.
  - destruct (String.eqb_spec k0 k) as [-> | Hne]; simpl.
    + destruct (String.eqb k k'); reflexivity.
    + rewrite IH. destruct (String.eqb_spec k0 k') as [-> | Hne'].
      * destruct (String.eqb_spec k k'); [congruence | reflexivity].
      * reflexivity.
Qed.

Lemma JSMap_get_In m k v : JSMap.get m k = Some v -> In (k, v) m.
Proof.
  induction m as [|[k0 v0] m IH]; simpl; [discriminate |].
  destruct (String.eqb_spec k0 k) as [-> | Hne].
  - intros [= ->]. now left.
  - intros H. right. now apply IH.
Qed.

Lemma JSMap_In_get m k v :
  NoDup (JSMap.keys m) -> In (k, v) m -> JSMap.get m k = Some v.
Proof.
  induction m as [|[k0 v0] m IH]; simpl; [contradiction |].
  intros Hnd [[= -> ->] | Hin].
  - now rewrite String.eqb_refl.
  - inversion Hnd as [|? ? Hnin Hnd']; subst.
    destruct (String.eqb_spec k0 k) as [-> | Hne]; [| now apply IH].
    exfalso. apply Hnin. change k with (fst (k, v)). now apply in_map.
Qed.

Lemma JSMap_has_In_keys m k : JSMap.has m k = true <-> In k (JSMap.keys m).
Proof.
  unfold JSMap.has. induction m as [|[k0 v0] m IH]; simpl.
  - split; [discriminate | contradiction].
  - destruct (String.eqb_spec k0 k) as [-> | Hne].
    + split; auto.
    + rewrite IH. split; [auto | intros [H | H]; [contradiction | exact H]].
Qed.

Lemma JSMap_has_false m k : JSMap.has m k = false <-> ~ In k (JSMap.keys m).
Proof.
  rewrite <- JSMap_has_In_keys. destruct (JSMap.has m k); split; congruence.
Qed.

Lemma JSMap_In_set m k v e :
  In e (JSMap.set m k v) -> e = (k, v) \/ In e m.
Proof.
  induction m as [|[k0 v0] m IH]; simpl.
  - intros [<- | []]. now left.
  - destruct (String.eqb k0 k); simpl.
    + intros [<- | H]; auto.
    + intros [<- | H]; auto. destruct (IH H); auto.
Qed.

Lemma JSMap_In_set_new m k v : In (k, v) (JSMap.set m k v).
Proof. apply JSMap_get_In. now rewrite JSMap_get_set, String.eqb_refl. Qed.

Lemma JSMap_In_set_other m k v e :
  In e m -> fst e <> k -> In e (JSMap.set m k v).
Proof.
  induction m as [|[k0 v0] m IH]; simpl; [contradiction |].
  intros [<- | Hin] Hne; simpl in *.
  - destruct (String.eqb_spec k0 k); [contradiction | now left].
  - destruct (String.eqb k0 k); right; auto.
Qed.

Lemma JSMap_keys_set m k v k' :
  In k' (JSMap.keys (JSMap.set m k v)) <-> k' = k \/ In k' (JSMap.keys m).
Proof.
  rewrite <- !JSMap_has_In_keys. unfold JSMap.has. rewrite JSMap_get_set.
  destruct (String.eqb_spec k k') as [-> | Hne].
  - split; auto.
  - split; [auto | intros [H | H]; [congruence | exact H]].
Qed.

Lemma JSMap_NoDup_set m k v :
  NoDup (JSMap.keys m) -> NoDup (JSMap.keys (JSMap.set m k v)).
Proof.
  induction m as [|[k0 v0] m IH]; simpl; intros Hnd.
  - constructor; [intros [] | constructor].
  - inversion Hnd as [|? ? Hnin Hnd']; subst.
    destruct (String.eqb_spec k0 k) as [-> | Hne]; simpl.
    + now constructor.
    + constructor; [| now apply IH].
      change (~ In k0 (JSMap.keys (JSMap.set m k v))).
      rewrite JSMap_keys_set. intros [H | H]; [congruence | contradiction].
Qed.

Lemma JSMap_In_delete m k e : In e (JSMap.delete m k) -> In e m.
Proof.
  induction m as [|[k0 v0] m IH]; simpl; [contradiction |].
  destruct (String.eqb k0 k); simpl; [now right |].
  intros [<- | H]; auto.
Qed.

Lemma JSMap_In_delete_other m k e :
  In e m -> fst e <> k -> In e (JSMap.delete m k).
Proof.
  induction m as [|[k0 v0] m IH]; simpl; [contradiction |].
  intros [<- | Hin] Hne; simpl in *.
  - destruct (String.eqb_spec k0 k); [contradiction | now left].
  - destruct (String.eqb k0 k); [exact Hin | right; auto].
Qed.

Lemma JSMap_keys_delete m k k' :
  In k' (JSMap.keys (JSMap.delete m k)) -> In k' (JSMap.keys m).
Proof.
  unfold JSMap.keys. rewrite !in_map_iff.
  intros (e & He & Hin). exists e. split; [exact He |].
  eapply JSMap_In_delete; eauto.
Qed.

Lemma JSMap_NoDup_delete m k :
  NoDup (JSMap.keys m) -> NoDup (JSMap.keys (JSMap.delete m k)).
Proof.
  induction m as [|[k0 v0] m IH]; simpl; intros Hnd; [constructor |].
  inversion Hnd as [|? ? Hnin Hnd']; subst.
  destruct (String.eqb k0 k); simpl; [exact Hnd' |].
  constructor; [| now apply IH].
  intros H. apply Hnin. eapply JSMap_keys_delete; eauto.
Qed.

Lemma JSMap_delete_not_in m k :
  NoDup (JSMap.keys m) -> ~ In k (JSMap.keys (JSMap.delete m k)).
Proof.
  induction m as [|[k0 v0] m IH]; simpl; intros Hnd; [intros [] |].
  inversion Hnd as [|? ? Hnin Hnd']; subst.
  destruct (String.eqb_spec k0 k) as [-> | Hne]; simpl; [exact Hnin |].
  intros [H | H]; [contradiction | now apply IH].
Qed.

Lemma JSMap_In_values m v :
  In v (JSMap.values m) <-> exists k, In (k, v) m.
Proof.
  unfold JSMap.values. rewrite in_map_iff. split.
  - intros ([k v'] & <- & Hin). now exists k.
  - intros (k & Hin). now exists (k, v).
Qed.

Lemma JSMap_In_keys m k e : In e m -> fst e = k -> In k (JSMap.keys m).
Proof. intros Hin <-. now apply in_map. Qed.

End JSMapFacts.

Lemma JSSet_has_add (s : JSSet.t) (k k' : string) :
  JSSet.has (JSSet.add s k) k' = JSSet.has s k' || String.eqb k' k.
Proof.
  unfold JSSet.add. destruct (JSSet.has s k) eqn:Hk.
  - destruct (String.eqb_spec k' k) as [-> | Hne].
    + rewrite Hk. reflexivity.
    + now rewrite orb_false_r.
  - unfold JSSet.has. rewrite existsb_app. simpl. now rewrite orb_false_r.
Qed.

(** ** The loops of the reducer *)

Ltac split_ands := repeat match goal with |- _ /\ _ => split end.

Lemma forEachM_cons (A St : Type) (f : St -> A -> nat -> M St)
  (x : A) (l : list A) (i : nat) (s : St) (a : ref) :
  forEachM f (x :: l) i s a =
  match f s x i a with
  | Normal (s', a') => forEachM f l (S i) s' a'
  | Throw e => Throw e
  end.
Proof. reflexivity. Qed.

Lemma forEachM_app (A St : Type) (f : St -> A -> nat -> M St)
  (l1 l2 : list A) (i : nat) (s : St) (a : ref) :
  forEachM f (l1 ++ l2) i s a =
  match forEachM f l1 i s a with
  | Normal (s', a') => forEachM f l2 (i + List.length l1) s' a'
  | Throw e => Throw e
  end.
Proof.
  revert i s a. induction l1 as [|x l1 IH]; intros i s a; simpl.
  - unfold ret. now rewrite Nat.add_0_r.
  - unfold bind. destruct (f s x i a) as [[s' a'] | e]; [| reflexivity].
    rewrite IH. now rewrite Nat.add_succ_r.
Qed.

Lemma append_inj (p a b : string) :
  String.append p a = String.append p b -> a = b.
Proof.
  induction p as [|c p IH]; simpl; [auto |]. intros [= H]. auto.
Qed.

Arguments sceneKey : simpl never.

Lemma sceneKey_inj (r1 r2 : NavigationRoute) :
  sceneKey r1 = sceneKey r2 -> route_key r1 = route_key r2.
Proof. apply append_inj. Qed.

Lemma NoDup_sceneKey (l : list NavigationRoute) :
  NoDup (map route_key l) <-> NoDup (map sceneKey l).
Proof.
  induction l as [|r l IH]; simpl; [split; constructor |].
  split; intros H; inversion H as [|? ? Hnin Hnd]; subst;
    (constructor; [| now apply IH]); intros Hin; apply Hnin;
    apply in_map_iff in Hin; destruct Hin as (r' & Hr' & Hin);
    apply in_map_iff; exists r'; (split; [| exact Hin]).
  - now apply sceneKey_inj.
  - change (String.append SCENE_KEY_PREFIX (route_key r') =
            String.append SCENE_KEY_PREFIX (route_key r)).
    now rewrite Hr'.
Qed.

(** *** [scenes.forEach] *)

Lemma populate_prev_other (l : list NavigationScene) acc (k : string) :
  (forall q, In q l -> key q <> k) ->
  JSMap.get (fst (fold_left populateScene l acc)) k = JSMap.get (fst acc) k.
Proof.
  revert acc. induction l as [|q l IH]; intros [p st] H; simpl; [reflexivity |].
  rewrite IH by (intros; apply H; now right). simpl.
  rewrite JSMap_get_set.
  destruct (String.eqb_spec (key q) k) as [Heq | Hne]; [| reflexivity].
  exfalso. apply (H q); [now left | exact Heq].
Qed.

Lemma populate_stale_other (l : list NavigationScene) acc (k : string) :
  (forall q, In q l -> key q <> k) ->
  JSMap.get (snd (fold_left populateScene l acc)) k = JSMap.get (snd acc) k.
Proof.
  revert acc. induction l as [|q l IH]; intros [p st] H; simpl; [reflexivity |].
  rewrite IH by (intros; apply H; now right). simpl.
  destruct (isStale q); [| reflexivity].
  rewrite JSMap_get_set.
  destruct (String.eqb_spec (key q) k) as [Heq | Hne]; [| reflexivity].
  exfalso. apply (H q); [now left | exact Heq].
Qed.

Lemma populate_prev_last (l1 l2 : list NavigationScene)
  (p : NavigationScene) acc :
  (forall q, In q l2 -> key q <> key p) ->
  JSMap.get (fst (fold_left populateScene (l1 ++ p :: l2) acc)) (key p)
  = Some p.
Proof.
  intros H. rewrite fold_left_app. simpl.
  rewrite populate_prev_other by exact H.
  destruct (fold_left populateScene l1 acc) as [pm st]. simpl.
  now rewrite JSMap_get_set, String.eqb_refl.
Qed.

Lemma populate_stale_last (l1 l2 : list NavigationScene)
  (p : NavigationScene) acc :
  (forall q, In q l2 -> key q <> key p) -> isStale p = true ->
  JSMap.get (snd (fold_left populateScene (l1 ++ p :: l2) acc)) (key p)
  = Some p.
Proof.
  intros H Hp. rewrite fold_left_app. simpl.
  rewrite populate_stale_other by exact H.
  destruct (fold_left populateScene l1 acc) as [pm st]. simpl. rewrite Hp.
  now rewrite JSMap_get_set, String.eqb_refl.
Qed.

Lemma populate_stale_NoDup (l : list NavigationScene) acc :
  NoDup (JSMap.keys (snd acc)) ->
  NoDup (JSMap.keys (snd (fold_left populateScene l acc))).
Proof.
  revert acc. induction l as [|q l IH]; intros [p st] H; simpl; [exact H |].
  apply IH. simpl. destruct (isStale q); [| exact H].
  now apply JSMap_NoDup_set.
Qed.

Lemma populate_staleEntries (l : list NavigationScene) acc :
  staleEntries (snd acc) ->
  staleEntries (snd (fold_left populateScene l acc)).
Proof.
  revert acc. induction l as [|q l IH]; intros [p st] H; simpl; [exact H |].
  apply IH. simpl. destruct (isStale q) eqn:Hq; [| exact H].
  intros k s Hin. apply JSMap_In_set in Hin.
  destruct Hin as [[= -> ->] | Hin]; [auto | now apply H].
Qed.

(** *** [nextState.children.forEach] *)

Lemma set_append (m : SceneMap) (k : string) (v : NavigationScene) :
  ~ In k (JSMap.keys m) -> JSMap.set m k v = m ++ [(k, v)].
Proof.
  induction m as [|[k0 v0] m IH]; simpl; intros H; [reflexivity |].
  destruct (String.eqb_spec k0 k) as [-> | Hne].
  - exfalso. apply H. now left.
  - f_equal. apply IH. intros Hin. apply H. now right.
Qed.

Lemma keys_freshEntries (a i : nat) (l : list NavigationRoute) :
  JSMap.keys (freshEntries a i l) = map sceneKey l.
Proof.
  revert a i. induction l as [|r l IH]; intros a i; simpl; [reflexivity |].
  f_equal. apply IH.
Qed.

Lemma visitNextChild_step nk (st fr : SceneMap) (r : NavigationRoute)
  (i : nat) (a : ref) :
  visitNextChild (nk, st, fr) r i a =
  if JSSet.has nk (sceneKey r)
  then Throw (InvariantViolation (fbjsFormat (conflictFormat i (sceneKey r))))
  else Normal
         ((JSSet.add nk (sceneKey r),
           (if JSMap.has st (sceneKey r) then JSMap.delete st (sceneKey r)
            else st),
           JSMap.set fr (sceneKey r)
             (mkScene a (Z.of_nat i) false (sceneKey r) r)),
          S a).
Proof.
  unfold visitNextChild, bind, newScene, invariant, ret.
  destruct (JSSet.has nk (sceneKey r)); reflexivity.
Qed.

(** With pairwise distinct scene keys the loop completes: it appends one
    fresh scene per route and deletes from [staleScenes] the keys it meets. *)
Lemma visitNext_ok (l : list NavigationRoute) :
  forall (i : nat) nk (st fr : SceneMap) (a : ref),
    NoDup (map sceneKey l) ->
    (forall r, In r l -> JSSet.has nk (sceneKey r) = false) ->
    (forall r, In r l -> ~ In (sceneKey r) (JSMap.keys fr)) ->
    exists nk' st',
      forEachM visitNextChild l i (nk, st, fr) a =
        Normal ((nk', st', fr ++ freshEntries a i l), a + List.length l) /\
      (NoDup (JSMap.keys st) -> NoDup (JSMap.keys st')) /\
      (forall e, In e st' -> In e st) /\
      (NoDup (JSMap.keys st) ->
       forall k, In k (JSMap.keys st') -> ~ In k (map sceneKey l)) /\
      (forall e, In e st -> ~ In (fst e) (map sceneKey l) -> In e st').
Proof.
  induction l as [|r l IH]; intros i nk st fr a Hnd Hnk Hfr.
  - exists nk, st. simpl. unfold ret.
    rewrite app_nil_r, Nat.add_0_r. repeat split; auto.
  - simpl in Hnd. inversion Hnd as [|? ? Hnin Hnd']; subst.
    set (k := sceneKey r) in *.
    set (sc := mkScene a (Z.of_nat i) false k r).
    set (st1 := if JSMap.has st k then JSMap.delete st k else st).
    assert (Hst1_in : forall e, In e st1 -> In e st).
    { intros e. unfold st1. destruct (JSMap.has st k); [| auto].
      apply JSMap_In_delete. }
    assert (Hst1_nd : NoDup (JSMap.keys st) -> NoDup (JSMap.keys st1)).
    { intros H. unfold st1. destruct (JSMap.has st k); [| auto].
      now apply JSMap_NoDup_delete. }
    assert (Hst1_k : NoDup (JSMap.keys st) -> ~ In k (JSMap.keys st1)).
    { intros H. unfold st1. destruct (JSMap.has st k) eqn:Hh.
      - now apply JSMap_delete_not_in.
      - now apply JSMap_has_false. }
    assert (Hst1_keep : forall e, In e st -> fst e <> k -> In e st1).
    { intros e He Hne. unfold st1. destruct (JSMap.has st k); [| auto].
      now apply JSMap_In_delete_other. }
    destruct (IH (S i) (JSSet.add nk k) st1 (fr ++ [(k, sc)]) (S a))
      as (nk' & st' & Hrun & Hnd_st & Hin_st & Hkeys_st & Hkeep_st).
    + exact Hnd'.
    + intros r' Hr'. rewrite JSSet_has_add.
      rewrite (Hnk r') by now right. rewrite orb_false_l.
      apply String.eqb_neq. intros Heq. apply Hnin. rewrite <- Heq.
      now apply in_map.
    + intros r' Hr'. unfold JSMap.keys. rewrite map_app, in_app_iff.
      intros [H | [H | []]].
      * apply (Hfr r'); [now right | exact H].
      * apply Hnin. simpl in H. rewrite H. now apply in_map.
    + exists nk', st'. split; [| repeat split].
      * rewrite forEachM_cons, visitNextChild_step.
        assert (Hr : JSSet.has nk k = false) by (apply Hnk; now left).
        assert (Hk : ~ In k (JSMap.keys fr)) by (apply Hfr; now left).
        subst st1 sc k.
        rewrite Hr, (set_append _ _ _ Hk).
        eapply eq_trans; [exact Hrun |].
        rewrite <- app_assoc. simpl. now rewrite Nat.add_succ_r.
      * auto.
      * auto.
      * intros H k' Hk' [<- | Hin].
        -- assert (Hk1 : In k (JSMap.keys st1)).
           { unfold JSMap.keys in *. apply in_map_iff in Hk'.
             destruct Hk' as (e & He & Hin). apply in_map_iff.
             exists e. split; [exact He | now apply Hin_st]. }
           exact (Hst1_k H Hk1).
        -- exact (Hkeys_st (Hst1_nd H) k' Hk' Hin).
      * intros e He Hne. apply Hkeep_st.
        -- apply Hst1_keep; [exact He |]. intros Heq. apply Hne. now left.
        -- intros Hin. apply Hne. now right.
Qed.

(** With a repeated scene key the invariant fails. *)
Lemma visitNext_throw (l : list NavigationRoute) :
  forall (i : nat) nk (st fr : SceneMap) (a : ref),
    ~ (NoDup (map sceneKey l) /\
       forall r, In r l -> JSSet.has nk (sceneKey r) = false) ->
    exists e, forEachM visitNextChild l i (nk, st, fr) a = Throw e.
Proof.
  induction l as [|r l IH]; intros i nk st fr a H.
  - exfalso. apply H. split; [constructor | intros r []].
  - rewrite forEachM_cons, visitNextChild_step.
    destruct (JSSet.has nk (sceneKey r)) eqn:Hr; [eauto |].
    apply IH. intros [Hnd Hnk]. apply H. split.
    + simpl. constructor; [| exact Hnd].
      intros Hin. apply in_map_iff in Hin. destruct Hin as (r' & Heq & Hr').
      specialize (Hnk r' Hr'). rewrite JSSet_has_add, Heq in Hnk.
      rewrite String.eqb_refl, orb_true_r in Hnk. discriminate.
    + intros r' [<- | Hr']; [exact Hr |].
      specialize (Hnk r' Hr'). rewrite JSSet_has_add in Hnk.
      now apply orb_false_elim in Hnk.
Qed.

(** *** [prevState.children.forEach] *)

Lemma visitPrevChild_step (fr st : SceneMap) (r : NavigationRoute)
  (i : nat) (a : ref) :
  visitPrevChild fr st r i a =
  if JSMap.has fr (sceneKey r) then Normal (st, a)
  else Normal
         (JSMap.set st (sceneKey r)
            (mkScene a (Z.of_nat i) true (sceneKey r) r),
          S a).
Proof.
  unfold visitPrevChild, bind, newScene, ret.
  destruct (JSMap.has fr (sceneKey r)); reflexivity.
Qed.

(** The loop never throws; it only adds stale scenes, under keys that
    [freshScenes] does not have. *)
Lemma visitPrev_ok (fr : SceneMap) (l : list NavigationRoute) :
  forall (i : nat) (st : SceneMap) (a : ref),
    exists st' a',
      forEachM (visitPrevChild fr) l i st a = Normal (st', a') /\
      (NoDup (JSMap.keys st) -> NoDup (JSMap.keys st')) /\
      (staleEntries st -> staleEntries st') /\
      (forall k, In k (JSMap.keys st') ->
                 In k (JSMap.keys st) \/
                 (In k (map sceneKey l) /\ JSMap.has fr k = false)) /\
      (forall e, In e st -> ~ In (fst e) (map sceneKey l) -> In e st') /\
      (forall k, ~ In k (map sceneKey l) -> JSMap.get st' k = JSMap.get st k).
Proof.
  induction l as [|r l IH]; intros i st a.
  - exists st, a. simpl. unfold ret. split_ands; auto.
  - rewrite forEachM_cons, visitPrevChild_step.
    destruct (JSMap.has fr (sceneKey r)) eqn:Hfr.
    + destruct (IH (S i) st a)
        as (st' & a' & Hrun & Hnd & Hse & Hk & Hkeep & Hget).
      exists st', a'. split; [exact Hrun | split_ands; auto].
      * intros k Hin. destruct (Hk k Hin) as [H | [H H']]; auto.
        right. split; [now right | exact H'].
      * intros e He Hne. apply Hkeep; [exact He |].
        intros Hin. apply Hne. now right.
      * intros k Hne. apply Hget. intros Hin. apply Hne. now right.
    + set (sc := mkScene a (Z.of_nat i) true (sceneKey r) r).
      destruct (IH (S i) (JSMap.set st (sceneKey r) sc) (S a))
        as (st' & a' & Hrun & Hnd & Hse & Hk & Hkeep & Hget).
      exists st', a'. split; [exact Hrun | split_ands].
      * intros H. apply Hnd. now apply JSMap_NoDup_set.
      * intros H. apply Hse. intros k s Hin.
        apply JSMap_In_set in Hin. destruct Hin as [[= -> ->] | Hin];
          [split; reflexivity | now apply H].
      * intros k Hin. destruct (Hk k Hin) as [H | [H H']].
        -- apply JSMap_keys_set in H. destruct H as [-> | H]; [| now left].
           right. split; [now left | exact Hfr].
        -- right. split; [now right | exact H'].
      * intros e He Hne. apply Hkeep.
        -- apply JSMap_In_set_other; [exact He |].
           intros Heq. apply Hne. now left.
        -- intros Hin. apply Hne. now right.
      * intros k Hne. rewrite Hget by (intros Hin; apply Hne; now right).
        rewrite JSMap_get_set.
        destruct (String.eqb_spec (sceneKey r) k) as [Heq | _]; [| reflexivity].
        exfalso. apply Hne. now left.
Qed.

(** The last route of [prevState.children] with a scene key that
    [freshScenes] does not have decides the stale scene under that key. *)
Lemma visitPrev_last (fr : SceneMap) (l1 l2 : list NavigationRoute)
  (r : NavigationRoute) (i : nat) (st st' : SceneMap) (a a' : ref) :
  (forall r', In r' l2 -> sceneKey r' <> sceneKey r) ->
  JSMap.has fr (sceneKey r) = false ->
  forEachM (visitPrevChild fr) (l1 ++ r :: l2) i st a = Normal (st', a') ->
  exists ref,
    JSMap.get st' (sceneKey r) =
    Some (mkScene ref (Z.of_nat (i + List.length l1)) true (sceneKey r) r).
Proof.
  intros Hl2 Hfr. rewrite forEachM_app.
  destruct (visitPrev_ok fr l1 i st a) as (st1 & a1 & -> & _).
  rewrite forEachM_cons, visitPrevChild_step, Hfr.
  set (sc := mkScene a1 _ true (sceneKey r) r).
  destruct (visitPrev_ok fr l2 (S (i + List.length l1))
              (JSMap.set st1 (sceneKey r) sc) (S a1))
    as (st2 & a2 & Hrun & _ & _ & _ & _ & Hget).
  intros Heq. assert (st2 = st') by congruence. subst st2.
  exists a1. rewrite Hget.
  - now rewrite JSMap_get_set, String.eqb_refl.
  - intros Hin. apply in_map_iff in Hin. destruct Hin as (r' & Heq' & Hr').
    exact (Hl2 r' Hr' Heq').
Qed.

(** *** The maps at merge time *)

Lemma freshEntries_In (a i : nat) (l : list NavigationRoute)
  (k : string) (s : NavigationScene) :
  In (k, s) (freshEntries a i l) <->
  exists j r, nth_error l j = Some r /\ k = sceneKey r /\
              s = mkScene (a + j) (Z.of_nat (i + j)) false (sceneKey r) r.
Proof.
  revert a i. induction l as [|r0 l IH]; intros a i; simpl.
  - split; [intros [] | intros ([|j] & r & H & _); discriminate].
  - rewrite IH. split.
    + intros [[= <- <-] | (j & r & Hj & Hk & Hs)].
      * exists 0, r0. now rewrite !Nat.add_0_r.
      * exists (S j), r. rewrite !Nat.add_succ_r. auto.
    + intros ([|j] & r & Hj & Hk & Hs); simpl in Hj.
      * injection Hj as ->. left. subst. now rewrite !Nat.add_0_r.
      * right. exists j, r. rewrite !Nat.add_succ_r in Hs. auto.
Qed.

Lemma classifyScenes_unfold (scenes : list NavigationScene)
  (nextState : NavigationState) (prevState : option NavigationState)
  (a : ref) :
  classifyScenes scenes nextState prevState a =
  let pop := fold_left populateScene scenes (JSMap.empty, JSMap.empty) in
  match forEachM visitNextChild (children nextState) 0
          (JSSet.empty, snd pop, JSMap.empty) a with
  | Normal ((_, st, fr), a1) =>
      match
        match prevState with
        | Some p => forEachM (visitPrevChild fr) (children p) 0 st a1
        | None => Normal (st, a1)
        end
      with
      | Normal (st', a2) => Normal (mkMaps (fst pop) fr st', a2)
      | Throw e => Throw e
      end
  | Throw e => Throw e
  end.
Proof.
  unfold classifyScenes.
  destruct (fold_left populateScene scenes (JSMap.empty, JSMap.empty))
    as [pm st0].
  cbv zeta. unfold bind at 1. simpl fst. simpl snd.
  destruct (forEachM visitNextChild (children nextState) 0
              (JSSet.empty, st0, JSMap.empty) a) as [[[[nk st] fr] a1] | e];
    [| reflexivity].
  unfold bind, ret. destruct prevState as [p |]; [| reflexivity].
  destruct (forEachM (visitPrevChild fr) (children p) 0 st a1)
    as [[st' a2] | e]; reflexivity.
Qed.

(** With pairwise distinct scene keys in [nextState.children] the maps are
    built: [freshScenes] holds one new scene per route, and [staleScenes]
    holds stale scenes under keys that are not fresh. *)
Lemma classifyScenes_ok (scenes : list NavigationScene)
  (nextState : NavigationState) (prevState : option NavigationState)
  (a : ref) :
  NoDup (map sceneKey (children nextState)) ->
  exists st a1,
    classifyScenes scenes nextState prevState a =
      Normal
        (mkMaps
           (fst (fold_left populateScene scenes (JSMap.empty, JSMap.empty)))
           (freshEntries a 0 (children nextState)) st,
         a1) /\
    NoDup (JSMap.keys st) /\
    staleEntries st /\
    (forall k, In k (JSMap.keys st) ->
               ~ In k (map sceneKey (children nextState))) /\
    (forall e,
        In e (snd (fold_left populateScene scenes
                     (JSMap.empty, JSMap.empty))) ->
        ~ In (fst e) (map sceneKey (children nextState)) ->
        (forall p, prevState = Some p ->
                   ~ In (fst e) (map sceneKey (children p))) ->
        In e st) /\
    (forall p l1 r l2,
        prevState = Some p -> children p = l1 ++ r :: l2 ->
        (forall r', In r' l2 -> sceneKey r' <> sceneKey r) ->
        ~ In (sceneKey r) (map sceneKey (children nextState)) ->
        exists ref,
          In (sceneKey r,
              mkScene ref (Z.of_nat (List.length l1)) true (sceneKey r) r) st).
Proof.
  intros Hnd. rewrite classifyScenes_unfold. cbv zeta.
  set (pop := fold_left populateScene scenes (JSMap.empty, JSMap.empty)).
  assert (Hpop_nd : NoDup (JSMap.keys (snd pop)))
    by (apply populate_stale_NoDup; constructor).
  assert (Hpop_se : staleEntries (snd pop))
    by (apply populate_staleEntries; intros k s []).
  destruct (visitNext_ok (children nextState) 0 JSSet.empty (snd pop)
              JSMap.empty a Hnd)
    as (nk & st1 & Hrun & Hnd1 & Hin1 & Hkeys1 & Hkeep1);
    [reflexivity | intros r _ [] |].
  rewrite Hrun. simpl app.
  set (fr := freshEntries a 0 (children nextState)).
  assert (Hfr : forall k, JSMap.has fr k = false <->
                          ~ In k (map sceneKey (children nextState))).
  { intros k. rewrite JSMap_has_false. unfold fr.
    now rewrite keys_freshEntries. }
  assert (Hse1 : staleEntries st1)
    by (intros k s Hin; apply Hpop_se; now apply Hin1).
  destruct prevState as [p |].
  - destruct (visitPrev_ok fr (children p) 0 st1
                (a + List.length (children nextState)))
      as (st2 & a2 & Hrun2 & Hnd2 & Hse2 & Hkeys2 & Hkeep2 & Hget2).
    rewrite Hrun2. exists st2, a2. split_ands.
    + reflexivity.
    + auto.
    + auto.
    + intros k Hin. destruct (Hkeys2 k Hin) as [H | [_ H]].
      * now apply Hkeys1.
      * now apply Hfr.
    + intros e He Hnext Hprev. apply Hkeep2; [now apply Hkeep1 |].
      now apply (Hprev p).
    + intros p' l1 r l2 [= <-] Hch Hl2 Hnext.
      rewrite Hch in Hrun2.
      destruct (visitPrev_last fr l1 l2 r 0 st1 _ _ _ Hl2
                  (proj2 (Hfr _) Hnext) Hrun2)
        as (ref & Hget).
      exists ref. now apply JSMap_get_In.
  - exists st1, (a + List.length (children nextState)). split_ands.
    + reflexivity.
    + auto.
    + auto.
    + auto.
    + intros e He Hnext _. now apply Hkeep1.
    + intros p l1 r l2 [=].
Qed.

(** With a repeated scene key in [nextState.children] no map is built. *)
Lemma classifyScenes_throw (scenes : list NavigationScene)
  (nextState : NavigationState) (prevState : option NavigationState)
  (a : ref) :
  ~ NoDup (map sceneKey (children nextState)) ->
  exists e, classifyScenes scenes nextState prevState a = Throw e.
Proof.
  intros Hnd. rewrite classifyScenes_unfold. cbv zeta.
  destruct (visitNext_throw (children nextState) 0 JSSet.empty
              (snd (fold_left populateScene scenes (JSMap.empty, JSMap.empty)))
              JSMap.empty a) as (e & ->).
  - intros [H _]. exact (Hnd H).
  - now exists e.
Qed.

(** *** The merge *)

Lemma areScenesShallowEqual_true (one two : NavigationScene) :
  areScenesShallowEqual one two = true ->
  key one = key two /\ index one = index two /\
  isStale one = isStale two /\ route one = route two.
Proof.
  unfold areScenesShallowEqual. rewrite !andb_true_iff.
  intros [[[[Hk Hi] Hs] Hr] _].
  apply String.eqb_eq in Hk. apply Z.eqb_eq in Hi.
  apply Bool.eqb_prop in Hs. apply Nat.eqb_eq in Hr. auto.
Qed.

Lemma areScenesShallowEqual_refl (s : NavigationScene) :
  areScenesShallowEqual s s = true.
Proof.
  unfold areScenesShallowEqual.
  now rewrite !String.eqb_refl, Z.eqb_refl, Bool.eqb_reflx, Nat.eqb_refl.
Qed.

Lemma mergeScene_cases (prev : SceneMap) (c : NavigationScene) :
  mergeScene prev c = c \/
  exists p, JSMap.get prev (key c) = Some p /\
            areScenesShallowEqual p c = true /\ mergeScene prev c = p.
Proof.
  unfold mergeScene, JSMap.has.
  destruct (JSMap.get prev (key c)) as [p |]; [| now left].
  destruct (areScenesShallowEqual p c) eqn:Heq; [| now left].
  right. now exists p.
Qed.

Lemma mergeScene_reuse (prev : SceneMap) (c p : NavigationScene) :
  JSMap.get prev (key c) = Some p -> areScenesShallowEqual p c = true ->
  mergeScene prev c = p.
Proof.
  intros Hget Heq. unfold mergeScene, JSMap.has. now rewrite Hget, Heq.
Qed.

(** The scene that [mergeScene] pushes has the fields of the candidate. *)
Lemma mergeScene_fields (prev : SceneMap) (c : NavigationScene) :
  key (mergeScene prev c) = key c /\
  index (mergeScene prev c) = index c /\
  isStale (mergeScene prev c) = isStale c /\
  route (mergeScene prev c) = route c.
Proof.
  destruct (mergeScene_cases prev c) as [-> | (p & _ & Heq & ->)]; [auto |].
  now apply areScenesShallowEqual_true.
Qed.

Lemma map_key_mergeScene (prev : SceneMap) (l : list NavigationScene) :
  map key (map (mergeScene prev) l) = map key l.
Proof.
  rewrite map_map. apply map_ext. intros c. apply mergeScene_fields.
Qed.

Lemma staleEntries_keys (m : SceneMap) :
  staleEntries m -> map key (JSMap.values m) = JSMap.keys m.
Proof.
  unfold JSMap.values, JSMap.keys. rewrite map_map. intros H.
  apply map_ext_in. intros [k s] Hin. simpl. now apply H.
Qed.

Lemma freshEntries_keys (a i : nat) (l : list NavigationRoute) :
  map key (JSMap.values (freshEntries a i l)) = map sceneKey l.
Proof.
  revert a i. induction l as [|r l IH]; intros a i; simpl; [reflexivity |].
  f_equal. apply IH.
Qed.

Lemma mergeScenes_keys (maps : SceneMaps) (a i : nat)
  (l : list NavigationRoute) :
  staleEntries (staleScenes maps) ->
  freshScenes maps = freshEntries a i l ->
  map key (mergeScenes maps) = JSMap.keys (staleScenes maps) ++ map sceneKey l.
Proof.
  intros Hse Hfr. unfold mergeScenes.
  rewrite map_app, !map_key_mergeScene, Hfr, freshEntries_keys.
  now rewrite staleEntries_keys.
Qed.

Lemma mergeScenes_In (maps : SceneMaps) (s : NavigationScene) :
  In s (mergeScenes maps) <->
  exists c, (In c (JSMap.values (staleScenes maps)) \/
             In c (JSMap.values (freshScenes maps))) /\
            s = mergeScene (prevScenes maps) c.
Proof.
  unfold mergeScenes. rewrite in_app_iff, !in_map_iff. split.
  - intros [(c & <- & Hc) | (c & <- & Hc)]; exists c; auto.
  - intros (c & [Hc | Hc] & ->); [left | right]; now exists c.
Qed.

(** *** The reducer *)

Lemma reducer_fast (scenes : SceneArray) (nextState : NavigationState)
  (prevState : option NavigationState) (a : ref) :
  same_state prevState nextState = true ->
  NavigationScenesReducer scenes nextState prevState a = Normal (scenes, a).
Proof. intros H. unfold NavigationScenesReducer. now rewrite H. Qed.

Lemma reducer_slow (scenes : SceneArray) (nextState : NavigationState)
  (prevState : option NavigationState) (a : ref) :
  same_state prevState nextState = false ->
  NavigationScenesReducer scenes nextState prevState a =
  match classifyScenes (elems scenes) nextState prevState a with
  | Normal (maps, a1) =>
      Normal (mkArray a1 (sort compareScenes (mergeScenes maps)), S a1)
  | Throw e => Throw e
  end.
Proof.
  intros H. unfold NavigationScenesReducer. rewrite H. unfold bind.
  destruct (classifyScenes (elems scenes) nextState prevState a)
    as [[maps a1] | e]; reflexivity.
Qed.

(** A call that rebuilds the scenes returns only if the scene keys of
    [nextState.children] are pairwise distinct. *)
Lemma reducer_returns_NoDup (scenes out : SceneArray)
  (nextState : NavigationState) (prevState : option NavigationState)
  (a a' : ref) :
  same_state prevState nextState = false ->
  NavigationScenesReducer scenes nextState prevState a = Normal (out, a') ->
  NoDup (map sceneKey (children nextState)).
Proof.
  intros Hslow Hrun.
  destruct (NoDup_dec string_dec (map sceneKey (children nextState)))
    as [H | H]; [exact H |].
  destruct (classifyScenes_throw (elems scenes) nextState prevState a H)
    as (e & He).
  rewrite (reducer_slow _ _ _ _ Hslow), He in Hrun. discriminate.
Qed.

Lemma In_sort_mergeScenes (maps : SceneMaps) (s : NavigationScene) :
  In s (sort compareScenes (mergeScenes maps)) <-> In s (mergeScenes maps).
Proof.
  split; apply Permutation_in;
    [symmetry |]; apply sort_perm.
Qed.

Lemma NoDup_sort_keys (l : list NavigationScene) :
  NoDup (map key l) -> NoDup (map key (sort compareScenes l)).
Proof.
  apply Permutation_NoDup. apply Permutation_map. apply sort_perm.
Qed.

(** A call that rebuilds the scenes, on pairwise distinct scene keys: the
    maps, the array it returns, and what holds of them. *)
Lemma reducer_rebuilds (scenes : SceneArray) (nextState : NavigationState)
  (prevState : option NavigationState) (a : ref) :
  same_state prevState nextState = false ->
  NoDup (map sceneKey (children nextState)) ->
  exists maps a1,
    classifyScenes (elems scenes) nextState prevState a = Normal (maps, a1) /\
    NavigationScenesReducer scenes nextState prevState a =
      Normal (mkArray a1 (sort compareScenes (mergeScenes maps)), S a1) /\
    prevScenes maps =
      fst (fold_left populateScene (elems scenes) (JSMap.empty, JSMap.empty)) /\
    freshScenes maps = freshEntries a 0 (children nextState) /\
    NoDup (JSMap.keys (staleScenes maps)) /\
    staleEntries (staleScenes maps) /\
    (forall k, In k (JSMap.keys (staleScenes maps)) ->
               ~ In k (map sceneKey (children nextState))) /\
    (forall e,
        In e (snd (fold_left populateScene (elems scenes)
                     (JSMap.empty, JSMap.empty))) ->
        ~ In (fst e) (map sceneKey (children nextState)) ->
        (forall p, prevState = Some p ->
                   ~ In (fst e) (map sceneKey (children p))) ->
        In e (staleScenes maps)) /\
    (forall p l1 r l2,
        prevState = Some p -> children p = l1 ++ r :: l2 ->
        (forall r', In r' l2 -> sceneKey r' <> sceneKey r) ->
        ~ In (sceneKey r) (map sceneKey (children nextState)) ->
        exists ref,
          In (sceneKey r,
              mkScene ref (Z.of_nat (List.length l1)) true (sceneKey r) r)
             (staleScenes maps)) /\
    NoDup (map key (sort compareScenes (mergeScenes maps))).
Proof.
  intros Hslow Hnd.
  destruct (classifyScenes_ok (elems scenes) nextState prevState a Hnd)
    as (st & a1 & Hrun & Hnd_st & Hse & Hdisj & Hkeep & Hlast).
  eexists; exists a1. split; [exact Hrun |]. simpl.
  split; [now rewrite (reducer_slow _ _ _ _ Hslow), Hrun |].
  split_ands; auto.
  apply NoDup_sort_keys.
  erewrite mergeScenes_keys; [| exact Hse | reflexivity]. simpl.
  apply NoDup_app; auto.
Qed.

(** The array that a rebuilding call returns does not depend on how [sort]
    works: every arrangement of the merged scenes in which no scene stands
    before one that the comparator puts first is the returned one. *)
Lemma reducer_order_canonical (scenes : SceneArray)
  (nextState : NavigationState) (prevState : option NavigationState)
  (a a1 : ref) (maps : SceneMaps) (l' : list NavigationScene) :
  same_state prevState nextState = false ->
  classifyScenes (elems scenes) nextState prevState a = Normal (maps, a1) ->
  Permutation (mergeScenes maps) l' ->
  StronglySorted (notAfter compareScenes) l' ->
  NavigationScenesReducer scenes nextState prevState a
    = Normal (mkArray a1 l', S a1).
Proof.
  intros Hslow Hcl Hperm Hsorted.
  assert (Hnd : NoDup (map sceneKey (children nextState))).
  { destruct (NoDup_dec string_dec (map sceneKey (children nextState)))
      as [H | H]; [exact H |].
    destruct (classifyScenes_throw (elems scenes) nextState prevState a H)
      as (e & He). congruence. }
  destruct (reducer_rebuilds scenes nextState prevState a Hslow Hnd)
    as (maps' & a1' & Hcl' & Hred & _ & _ & _ & _ & _ & _ & _ & Hout).
  assert (maps' = maps /\ a1' = a1) as [-> ->] by (split; congruence).
  rewrite Hred. do 2 f_equal. f_equal. symmetry.
  apply sort_unique; auto.
  eapply Permutation_NoDup; [| exact Hout].
  apply Permutation_map. symmetry. apply sort_perm.
Qed.

(** ** The claims *)

(** C7, identity fast path: with the same state [T] as [nextState] and as
    [prevState], the reducer returns the array [S] it was given, the same
    object, whatever [S] and [T] hold, and allocates nothing. *)
Theorem identity_fast_path (S : SceneArray) (T : NavigationState) (a : ref) :
  NavigationScenesReducer S T (Some T) a = Normal (S, a).
Proof.
  apply reducer_fast. simpl. apply Nat.eqb_refl.
Qed.

(** C9, output key uniqueness: in a call that rebuilds the scenes and
    returns, no two scenes of the returned array share a key; the stale map
    and the fresh map each hold one scene per key and have no key in common
    when the merge starts, and the keys of the merged scenes are the keys of
    the two maps. *)
Theorem output_keys_unique (scenes out : SceneArray)
  (nextState : NavigationState) (prevState : option NavigationState)
  (a a' : ref) :
  same_state prevState nextState = false ->
  NavigationScenesReducer scenes nextState prevState a = Normal (out, a') ->
  NoDup (map key (elems out)) /\
  exists maps a1,
    classifyScenes (elems scenes) nextState prevState a = Normal (maps, a1) /\
    elems out = sort compareScenes (mergeScenes maps) /\
    NoDup (JSMap.keys (staleScenes maps)) /\
    NoDup (JSMap.keys (freshScenes maps)) /\
    (forall k, In k (JSMap.keys (staleScenes maps)) ->
               ~ In k (JSMap.keys (freshScenes maps))) /\
    map key (mergeScenes maps) =
      JSMap.keys (staleScenes maps) ++ JSMap.keys (freshScenes maps).
Proof.
  intros Hslow Hrun.
  pose proof (reducer_returns_NoDup _ _ _ _ _ _ Hslow Hrun) as Hnd.
  destruct (reducer_rebuilds scenes nextState prevState a Hslow Hnd)
    as (maps & a1 & Hcl & Hred & _ & Hfr & Hnd_st & Hse & Hdisj & _ & _ & Hout).
  rewrite Hred in Hrun. injection Hrun as <- <-. simpl.
  split; [exact Hout |].
  exists maps, a1. rewrite Hfr, keys_freshEntries. split_ands; auto.
  now apply mergeScenes_keys with (a := a) (i := 0).
Qed.

Lemma filter_unique (A : Type) (P : A -> bool) (l : list A) (x : A) :
  NoDup l -> In x l -> P x = true ->
  (forall y, In y l -> P y = true -> y = x) ->
  filter P l = [x].
Proof.
  induction l as [|z l IH]; intros Hnd Hin Hx Huniq; [contradiction |].
  inversion Hnd as [|? ? Hnin Hnd']; subst. simpl.
  destruct Hin as [-> | Hin].
  - rewrite Hx. f_equal.
    destruct (filter P l) as [|y t] eqn:Hf; [reflexivity |].
    assert (Hy : In y (filter P l)) by (rewrite Hf; now left).
    apply filter_In in Hy. destruct Hy as [Hy HPy].
    exfalso. apply Hnin. rewrite <- (Huniq y); auto. now right.
  - destruct (P z) eqn:Hz.
    + exfalso. apply Hnin. rewrite (Huniq z); auto. now left.
    + apply IH; auto. intros y Hy. apply Huniq. now right.
Qed.

Lemma StronglySorted_nth (A : Type) (R : A -> A -> Prop) (l : list A) :
  StronglySorted R l ->
  forall i j x y, i < j -> nth_error l i = Some x -> nth_error l j = Some y ->
                  R x y.
Proof.
  induction 1 as [|z l Hs IH Hz]; intros i j x y Hij Hi Hj.
  - destruct i; discriminate.
  - destruct j as [|j]; [lia |]. simpl in Hj.
    destruct i as [|i]; simpl in Hi.
    + injection Hi as ->. rewrite Forall_forall in Hz. apply Hz.
      eapply nth_error_In; eauto.
    + apply (IH i j); auto. lia.
Qed.

Lemma duplicate_sceneKey (l : list NavigationRoute) (i j : nat)
  (r1 r2 : NavigationRoute) :
  i <> j -> nth_error l i = Some r1 -> nth_error l j = Some r2 ->
  route_key r1 = route_key r2 -> ~ NoDup (map sceneKey l).
Proof.
  intros Hij Hi Hj Hk Hnd. apply Hij.
  apply (proj1 (NoDup_nth_error _) Hnd).
  - rewrite length_map. apply nth_error_Some. now rewrite Hi.
  - rewrite !nth_error_map, Hi, Hj. simpl. f_equal.
    change (String.append SCENE_KEY_PREFIX (route_key r1) =
            String.append SCENE_KEY_PREFIX (route_key r2)).
    now rewrite Hk.
Qed.

(** C1, completeness: in a call that rebuilds the scenes, with pairwise
    distinct keys in [nextState.children], the reducer returns, and for the
    route [r] at position [i] of [nextState.children] the returned array holds
    exactly one scene that is not stale and whose route is [r]; its index is
    [i] and its key is ["scene_" + r.key]. *)
Theorem fresh_completeness (scenes : SceneArray) (nextState : NavigationState)
  (prevState : option NavigationState) (a : ref) (i : nat)
  (r : NavigationRoute) :
  same_state prevState nextState = false ->
  NoDup (map route_key (children nextState)) ->
  nth_error (children nextState) i = Some r ->
  exists out a' s,
    NavigationScenesReducer scenes nextState prevState a = Normal (out, a') /\
    filter (fun s => negb (isStale s) && Nat.eqb (route s) r) (elems out)
      = [s] /\
    isStale s = false /\ route s = r /\
    index s = Z.of_nat i /\
    key s = String.append SCENE_KEY_PREFIX (route_key r).
Proof.
  intros Hslow Hkeys Hr.
  assert (Hnd : NoDup (map sceneKey (children nextState)))
    by now apply NoDup_sceneKey.
  assert (Hch : NoDup (children nextState)) by (eapply NoDup_map_inv; eauto).
  destruct (reducer_rebuilds scenes nextState prevState a Hslow Hnd)
    as (maps & a1 & _ & Hred & _ & Hfr & _ & Hse & _ & _ & _ & Hout).
  set (c := mkScene (a + i) (Z.of_nat (0 + i)) false (sceneKey r) r).
  set (s := mergeScene (prevScenes maps) c).
  assert (Hc : In c (JSMap.values (freshScenes maps))).
  { apply JSMap_In_values. exists (sceneKey r). rewrite Hfr.
    apply freshEntries_In. exists i, r. auto. }
  destruct (mergeScene_fields (prevScenes maps) c) as (Hk & Hi & Hs & Hro).
  fold s in Hk, Hi, Hs, Hro. simpl in Hk, Hi, Hs, Hro.
  eexists; exists (S a1), s. split; [exact Hred |]. simpl.
  split; [| auto].
  apply filter_unique.
  - eapply NoDup_map_inv; eauto.
  - apply In_sort_mergeScenes, mergeScenes_In. exists c. auto.
  - now rewrite Hs, Hro, Nat.eqb_refl.
  - intros y Hy HP. apply andb_true_iff in HP. destruct HP as [Hys Hyr].
    apply negb_true_iff in Hys. apply Nat.eqb_eq in Hyr.
    apply In_sort_mergeScenes, mergeScenes_In in Hy.
    destruct Hy as (c' & Hc' & ->).
    destruct (mergeScene_fields (prevScenes maps) c') as (_ & _ & Hs' & Hr').
    rewrite Hs' in Hys. rewrite Hr' in Hyr. clear Hs' Hr'.
    destruct Hc' as [Hc' | Hc']; apply JSMap_In_values in Hc';
      destruct Hc' as (k & Hc').
    + apply Hse in Hc'. destruct Hc' as [_ Hst]. congruence.
    + rewrite Hfr in Hc'. apply freshEntries_In in Hc'.
      destruct Hc' as (j & r' & Hj & _ & ->). simpl in Hyr. subst r'.
      assert (i = j) as <-.
      { apply (proj1 (NoDup_nth_error _) Hch); [| congruence].
        apply nth_error_Some. now rewrite Hr. }
      reflexivity.
Qed.

(** C2 as amended, duplicate key rejection: in a call that does not take the
    fast path, two routes at different positions of [nextState.children] with
    equal keys make the invariant fail, and no array is returned; with
    pairwise distinct keys in [nextState.children] the reducer returns an
    array. *)
Theorem duplicate_key_rejection (scenes : SceneArray)
  (nextState : NavigationState) (prevState : option NavigationState)
  (a : ref) :
  (same_state prevState nextState = false ->
   forall i j r1 r2,
     i <> j ->
     nth_error (children nextState) i = Some r1 ->
     nth_error (children nextState) j = Some r2 ->
     route_key r1 = route_key r2 ->
     exists e,
       NavigationScenesReducer scenes nextState prevState a = Throw e) /\
  (NoDup (map route_key (children nextState)) ->
   exists out a',
     NavigationScenesReducer scenes nextState prevState a = Normal (out, a')).
Proof.
  split.
  - intros Hslow i j r1 r2 Hij Hi Hj Hk.
    destruct (classifyScenes_throw (elems scenes) nextState prevState a
                (duplicate_sceneKey _ _ _ _ _ Hij Hi Hj Hk)) as (e & He).
    exists e. now rewrite (reducer_slow _ _ _ _ Hslow), He.
  - intros Hnd. destruct (same_state prevState nextState) eqn:Hs.
    + exists scenes, a. now apply reducer_fast.
    + apply NoDup_sceneKey in Hnd.
      destruct (reducer_rebuilds scenes nextState prevState a Hs Hnd)
        as (maps & a1 & _ & Hred & _).
      eauto.
Qed.

Lemma NoDup_map_eq (A B : Type) (f : A -> B) (l : list A) (x y : A) :
  NoDup (map f l) -> In x l -> In y l -> f x = f y -> x = y.
Proof.
  induction l as [|z l IH]; intros Hnd Hx Hy Hf; [contradiction |].
  simpl in Hnd. inversion Hnd as [|? ? Hnin Hnd']; subst.
  destruct Hx as [-> | Hx], Hy as [-> | Hy]; auto.
  - exfalso. apply Hnin. rewrite Hf. now apply in_map.
  - exfalso. apply Hnin. rewrite <- Hf. now apply in_map.
Qed.

Lemma NoDup_map_later (A B : Type) (f : A -> B) (l1 l2 : list A) (x : A) :
  NoDup (map f (l1 ++ x :: l2)) -> forall y, In y l2 -> f y <> f x.
Proof.
  rewrite map_app. simpl. intros Hnd y Hy Heq.
  apply NoDup_remove_2 in Hnd. apply Hnd. apply in_or_app. right.
  rewrite <- Heq. now apply in_map.
Qed.

Lemma keyBefore_scene_9_11 : keyBefore "scene_9" "scene_11".
Proof. left. simpl. lia. Qed.

(** What a call that rebuilds the scenes returns is in the order of the
    comparator, strictly. *)
Lemma reducer_sorted (scenes out : SceneArray) (nextState : NavigationState)
  (prevState : option NavigationState) (a a' : ref) :
  same_state prevState nextState = false ->
  NavigationScenesReducer scenes nextState prevState a = Normal (out, a') ->
  NoDup (map key (elems out)) /\ StronglySorted sceneBefore (elems out).
Proof.
  intros Hslow Hrun.
  pose proof (reducer_returns_NoDup _ _ _ _ _ _ Hslow Hrun) as Hnd.
  destruct (reducer_rebuilds scenes nextState prevState a Hslow Hnd)
    as (maps & a1 & _ & Hred & _ & _ & _ & _ & _ & _ & _ & Hout).
  rewrite Hred in Hrun. injection Hrun as <- <-. simpl.
  split; [exact Hout |].
  apply StronglySorted_notAfter_before; [exact Hout |].
  apply sort_scenes_StronglySorted.
Qed.

(** C3 as amended, ordering: the array returned by a call that does not
    take the fast path is sorted ascending by index, scenes of one index by the
    key comparator (shorter key first, keys of one length in lexicographic
    order): a scene stands before another exactly when it is smaller in this
    order, which is when [compareScenes] answers [-1] for the pair; a scene
    keyed "scene_9" stands before a scene keyed "scene_11" of the same
    index. *)
Theorem output_ordering (scenes out : SceneArray) (nextState : NavigationState)
  (prevState : option NavigationState) (a a' : ref) :
  same_state prevState nextState = false ->
  NavigationScenesReducer scenes nextState prevState a = Normal (out, a') ->
  StronglySorted sceneBefore (elems out) /\
  (forall i j x y,
      nth_error (elems out) i = Some x -> nth_error (elems out) j = Some y ->
      (i < j <-> sceneBefore x y) /\
      (i < j -> compareScenes x y = (-1)%Z /\ compareScenes y x = 1%Z)) /\
  (forall i j x y,
      nth_error (elems out) i = Some x -> nth_error (elems out) j = Some y ->
      index x = index y -> key x = "scene_9"%string ->
      key y = "scene_11"%string ->
      i < j).
Proof.
  intros Hslow Hrun.
  destruct (reducer_sorted _ _ _ _ _ _ Hslow Hrun) as [Hnd Hs].
  assert (Hpos : forall i j x y,
             nth_error (elems out) i = Some x ->
             nth_error (elems out) j = Some y ->
             (i < j <-> sceneBefore x y)).
  { intros i j x y Hi Hj. split.
    - intros Hij. exact (StronglySorted_nth _ _ _ Hs i j x y Hij Hi Hj).
    - intros Hxy. destruct (Nat.lt_trichotomy i j) as [H | [H | H]].
      + exact H.
      + subst j. assert (x = y) by congruence. subst y.
        destruct (sceneBefore_irrefl _ Hxy).
      + pose proof (StronglySorted_nth _ _ _ Hs j i y x H Hj Hi) as Hyx.
        destruct (sceneBefore_asym _ _ Hxy Hyx). }
  split; [exact Hs |]. split.
  - intros i j x y Hi Hj. split; [now apply Hpos |].
    intros Hij. apply (Hpos i j x y Hi Hj) in Hij. split.
    + apply compareScenes_lt. now left.
    + now apply compareScenes_gt.
  - intros i j x y Hi Hj Hidx Hx Hy. apply (Hpos i j x y Hi Hj).
    right. split; [exact Hidx |]. rewrite Hx, Hy.
    exact keyBefore_scene_9_11.
Qed.

(** C4 as amended, identity preservation: in a call that rebuilds the scenes,
    when a candidate [c] handed to [mergeScene] (a scene of the stale or of
    the fresh map) has the key of a scene [p] of the previous scenes that is
    the last one with that key, and [p] is shallow-equal to [c], the returned
    array holds the object [p] itself and no other scene with that key, so
    not the candidate unless the candidate is [p]. *)
Theorem identity_preservation (scenes : SceneArray)
  (nextState : NavigationState) (prevState : option NavigationState)
  (a a1 : ref) (maps : SceneMaps) (c p : NavigationScene)
  (l1 l2 : list NavigationScene) :
  same_state prevState nextState = false ->
  classifyScenes (elems scenes) nextState prevState a = Normal (maps, a1) ->
  In c (JSMap.values (staleScenes maps) ++ JSMap.values (freshScenes maps)) ->
  elems scenes = l1 ++ p :: l2 ->
  (forall q, In q l2 -> key q <> key p) ->
  areScenesShallowEqual p c = true ->
  exists out a',
    NavigationScenesReducer scenes nextState prevState a = Normal (out, a') /\
    In p (elems out) /\
    (forall s, In s (elems out) -> key s = key p -> s = p) /\
    (c <> p -> ~ In c (elems out)).
Proof.
  intros Hslow Hcl Hc Hsc Hlast Heq.
  assert (Hnd : NoDup (map sceneKey (children nextState))).
  { destruct (NoDup_dec string_dec (map sceneKey (children nextState)))
      as [H | H]; [exact H |].
    destruct (classifyScenes_throw (elems scenes) nextState prevState a H)
      as (e & He). congruence. }
  destruct (reducer_rebuilds scenes nextState prevState a Hslow Hnd)
    as (maps' & a1' & Hcl' & Hred & Hprev & _ & _ & _ & _ & _ & _ & Hout).
  assert (maps' = maps) by congruence. subst maps'.
  assert (Hk : key p = key c) by now apply areScenesShallowEqual_true.
  assert (Hget : JSMap.get (prevScenes maps) (key c) = Some p).
  { rewrite Hprev, Hsc, <- Hk. now apply populate_prev_last. }
  assert (Hp : In p (sort compareScenes (mergeScenes maps))).
  { apply In_sort_mergeScenes, mergeScenes_In. exists c.
    split; [now apply in_app_or |].
    symmetry. now apply mergeScene_reuse. }
  assert (Huniq : forall s, In s (sort compareScenes (mergeScenes maps)) ->
                            key s = key p -> s = p).
  { intros s Hs Hks. exact (NoDup_map_eq _ _ key _ s p Hout Hs Hp Hks). }
  eexists; eexists. split; [exact Hred |]. simpl. split_ands.
  - exact Hp.
  - exact Huniq.
  - intros Hne Hin. apply Hne. now apply Huniq.
Qed.

(** C5 as amended, stale retention: for a route [r] of
    [prevState.children] that is the last one there with its key and whose
    scene key is not the scene key of a route of [nextState.children], the
    returned array holds exactly one stale scene with that key; its index is
    the position of [r] in [prevState.children] and its route is [r]. *)
Theorem stale_retention (scenes out : SceneArray)
  (nextState p : NavigationState) (a a' : ref)
  (l1 l2 : list NavigationRoute) (r : NavigationRoute) :
  children p = l1 ++ r :: l2 ->
  (forall r', In r' l2 -> route_key r' <> route_key r) ->
  ~ In (sceneKey r) (map sceneKey (children nextState)) ->
  NavigationScenesReducer scenes nextState (Some p) a = Normal (out, a') ->
  exists s,
    filter (fun s => String.eqb (key s) (sceneKey r) && isStale s) (elems out)
      = [s] /\
    index s = Z.of_nat (List.length l1) /\
    route s = r.
Proof.
  intros Hch Hlast Hnext Hrun.
  assert (Hslow : same_state (Some p) nextState = false).
  { simpl. apply Nat.eqb_neq. intros ->. apply Hnext. apply in_map.
    rewrite Hch. apply in_elt. }
  pose proof (reducer_returns_NoDup _ _ _ _ _ _ Hslow Hrun) as Hnd.
  destruct (reducer_rebuilds scenes nextState (Some p) a Hslow Hnd)
    as (maps & a1 & _ & Hred & _ & _ & _ & _ & _ & _ & Hstale & Hout).
  rewrite Hred in Hrun. injection Hrun as <- <-. simpl.
  destruct (Hstale p l1 r l2 eq_refl Hch) as (ref & Hin); [| exact Hnext |].
  { intros r' Hr' Heq. exact (Hlast r' Hr' (sceneKey_inj _ _ Heq)). }
  set (c := mkScene ref (Z.of_nat (List.length l1)) true (sceneKey r) r) in *.
  destruct (mergeScene_fields (prevScenes maps) c) as (Hk & Hi & Hs & Hro).
  simpl in Hk, Hi, Hs, Hro.
  assert (Hc : In (mergeScene (prevScenes maps) c)
                 (sort compareScenes (mergeScenes maps))).
  { apply In_sort_mergeScenes, mergeScenes_In. exists c. split; [| reflexivity].
    left. apply JSMap_In_values. now exists (sceneKey r). }
  exists (mergeScene (prevScenes maps) c). split; [| auto].
  apply filter_unique.
  - eapply NoDup_map_inv; eauto.
  - exact Hc.
  - now rewrite Hk, Hs, String.eqb_refl.
  - intros y Hy HP. apply andb_true_iff in HP. destruct HP as [Hyk _].
    apply String.eqb_eq in Hyk.
    apply (NoDup_map_eq _ _ key _ _ _ Hout Hy Hc). congruence.
Qed.

(** C6 as amended, revival: in a call that does not take the fast path, when
    a stale scene of the previous scenes has the scene key of a route of
    [nextState.children], the returned array holds no stale scene with that
    key and exactly one scene with that key, which is not stale. *)
Theorem stale_revival (scenes out : SceneArray) (nextState : NavigationState)
  (prevState : option NavigationState) (a a' : ref)
  (p : NavigationScene) (r : NavigationRoute) :
  same_state prevState nextState = false ->
  In p (elems scenes) -> isStale p = true ->
  In r (children nextState) -> key p = sceneKey r ->
  NavigationScenesReducer scenes nextState prevState a = Normal (out, a') ->
  (forall s, In s (elems out) -> key s = key p -> isStale s = false) /\
  exists s,
    filter (fun s => String.eqb (key s) (key p)) (elems out) = [s] /\
    isStale s = false.
Proof.
  intros Hslow _ _ Hr Hkp Hrun.
  pose proof (reducer_returns_NoDup _ _ _ _ _ _ Hslow Hrun) as Hnd.
  destruct (reducer_rebuilds scenes nextState prevState a Hslow Hnd)
    as (maps & a1 & _ & Hred & _ & Hfr & _ & _ & _ & _ & _ & Hout).
  rewrite Hred in Hrun. injection Hrun as <- <-. simpl.
  destruct (In_nth_error _ _ Hr) as (j & Hj).
  set (c := mkScene (a + j) (Z.of_nat (0 + j)) false (sceneKey r) r).
  destruct (mergeScene_fields (prevScenes maps) c) as (Hk & _ & Hs & _).
  simpl in Hk, Hs.
  assert (Hc : In (mergeScene (prevScenes maps) c)
                 (sort compareScenes (mergeScenes maps))).
  { apply In_sort_mergeScenes, mergeScenes_In. exists c. split; [| reflexivity].
    right. apply JSMap_In_values. exists (sceneKey r). rewrite Hfr.
    apply freshEntries_In. exists j, r. auto. }
  assert (Huniq : forall s, In s (sort compareScenes (mergeScenes maps)) ->
                            key s = key p ->
                            s = mergeScene (prevScenes maps) c).
  { intros s Hin Hks.
    apply (NoDup_map_eq _ _ key _ _ _ Hout Hin Hc). congruence. }
  split.
  - intros s Hin Hks. now rewrite (Huniq s Hin Hks).
  - exists (mergeScene (prevScenes maps) c). split; [| exact Hs].
    apply filter_unique.
    + eapply NoDup_map_inv; eauto.
    + exact Hc.
    + apply String.eqb_eq. congruence.
    + intros y Hy HP. apply String.eqb_eq in HP. now apply Huniq.
Qed.

(** A key under which a previous scene is stale is a key of the stale map
    that [scenes.forEach] builds. *)
Lemma populate_stale_has (l : list NavigationScene) acc (k : string) :
  JSMap.has (snd acc) k = true \/
  (exists s, In s l /\ key s = k /\ isStale s = true) ->
  JSMap.has (snd (fold_left populateScene l acc)) k = true.
Proof.
  revert acc. induction l as [|q l IH]; intros [pm st] H; simpl in *.
  - destruct H as [H | (s & [] & _)]. exact H.
  - apply IH. simpl.
    destruct H as [H | (s & [<- | Hs] & Hk & Hstale)].
    + left. destruct (isStale q); [| exact H].
      apply JSMap_has_In_keys, JSMap_keys_set. right.
      now apply JSMap_has_In_keys.
    + left. rewrite Hstale, <- Hk.
      apply JSMap_has_In_keys, JSMap_keys_set. now left.
    + right. exists s. auto.
Qed.

(** C8 as amended, stale lifetime: a stale scene does not leave after one
    cycle.  When the array returned by a call holds a stale scene and is fed
    back as previous scenes to a next call that returns, whose
    [nextState.children] and whose [prevState.children] (if there is a
    [prevState]) hold no route with its scene key, the next array holds a
    stale scene with that key too; it is the very same scene object when the
    first call did not take the fast path, and whenever the scene is the last
    one with its key in the array that is fed back.  A stale scene stays until
    its key is revived. *)
Theorem stale_persists (scenes0 out1 out2 : SceneArray)
  (nextState1 nextState2 : NavigationState)
  (prevState1 prevState2 : option NavigationState)
  (a0 a1 a a2 : ref) (s : NavigationScene) :
  NavigationScenesReducer scenes0 nextState1 prevState1 a0
    = Normal (out1, a1) ->
  In s (elems out1) -> isStale s = true ->
  ~ In (key s) (map sceneKey (children nextState2)) ->
  (forall p, prevState2 = Some p ->
             ~ In (key s) (map sceneKey (children p))) ->
  NavigationScenesReducer out1 nextState2 prevState2 a = Normal (out2, a2) ->
  (exists s', In s' (elems out2) /\ key s' = key s /\ isStale s' = true) /\
  (same_state prevState1 nextState1 = false -> In s (elems out2)) /\
  ((exists l1 l2, elems out1 = l1 ++ s :: l2 /\
                  forall q, In q l2 -> key q <> key s) ->
   In s (elems out2)).
Proof.
  intros Hrun1 Hs Hstale Hnext Hprev Hrun2.
  destruct (same_state prevState2 nextState2) eqn:Hslow2.
  - rewrite (reducer_fast _ _ _ _ Hslow2) in Hrun2.
    injection Hrun2 as <- <-. split; [exists s; auto | auto].
  - pose proof (reducer_returns_NoDup _ _ _ _ _ _ Hslow2 Hrun2) as Hnd.
    destruct (reducer_rebuilds out1 nextState2 prevState2 a Hslow2 Hnd)
      as (maps & a1' & _ & Hred & Hpm & _ & _ & Hse & _ & Hkeep & _ & _).
    rewrite Hred in Hrun2. injection Hrun2 as <- <-. simpl.
    assert (Hlast : (exists l1 l2, elems out1 = l1 ++ s :: l2 /\
                                   forall q, In q l2 -> key q <> key s) ->
                    In s (sort compareScenes (mergeScenes maps))).
    { intros (l1 & l2 & Hsplit & Hlater). rewrite Hsplit in Hpm, Hkeep.
      apply In_sort_mergeScenes, mergeScenes_In. exists s. split.
      - left. apply JSMap_In_values. exists (key s).
        apply (Hkeep (key s, s)); auto.
        apply JSMap_get_In. now apply populate_stale_last.
      - symmetry. apply mergeScene_reuse.
        + rewrite Hpm. now apply populate_prev_last.
        + apply areScenesShallowEqual_refl. }
    split; [| split; [| exact Hlast]].
    + assert (Hhas : JSMap.has
                       (snd (fold_left populateScene (elems out1)
                               (JSMap.empty, JSMap.empty))) (key s) = true)
        by (apply populate_stale_has; right; exists s; auto).
      unfold JSMap.has in Hhas.
      destruct (JSMap.get
                  (snd (fold_left populateScene (elems out1)
                          (JSMap.empty, JSMap.empty))) (key s))
        as [v |] eqn:Hget; [| discriminate].
      apply JSMap_get_In in Hget.
      assert (Hv : In (key s, v) (staleScenes maps))
        by (apply (Hkeep (key s, v)); auto).
      destruct (Hse _ _ Hv) as [Hkv Hsv].
      destruct (mergeScene_fields (prevScenes maps) v) as (Hk & _ & Hst & _).
      exists (mergeScene (prevScenes maps) v). split_ands.
      * apply In_sort_mergeScenes, mergeScenes_In. exists v.
        split; [| reflexivity]. left. apply JSMap_In_values. now exists (key s).
      * congruence.
      * congruence.
    + intros Hslow1. apply Hlast.
      destruct (reducer_sorted _ _ _ _ _ _ Hslow1 Hrun1) as [Hnd1 _].
      destruct (in_split _ _ Hs) as (l1 & l2 & Hsplit).
      exists l1, l2. split; [exact Hsplit |]. rewrite Hsplit in Hnd1.
      exact (NoDup_map_later _ _ key _ _ _ Hnd1).
Qed.

(** *** The comparator as an order *)

Lemma sortsBefore_iff (x y : NavigationScene) :
  sortsBefore x y <->
  sceneBefore x y \/ (index x = index y /\ key x = key y).
Proof.
  unfold sortsBefore. rewrite <- compareScenes_lt.
  destruct (compareScenes_cases x y) as [-> | ->]; split; intros; lia.
Qed.

Lemma sortsBefore_trans (x y z : NavigationScene) :
  sortsBefore x y -> sortsBefore y z -> sortsBefore x z.
Proof.
  rewrite !sortsBefore_iff, <- !notAfter_scenes.
  apply notAfter_scenes_trans.
Qed.

Lemma sceneBefore_total (x y : NavigationScene) :
  sceneBefore x y \/ (index x = index y /\ key x = key y) \/ sceneBefore y x.
Proof.
  unfold sceneBefore.
  destruct (Z.lt_trichotomy (index x) (index y)) as [H | [H | H]]; auto.
  destruct (keyBefore_total (key x) (key y)) as [H' | [H' | H']]; auto.
Qed.

Lemma NoDup_keys_pairs (l : list NavigationScene) :
  NoDup (map key l) -> NoDup (map (fun s => (index s, key s)) l).
Proof.
  intros H. apply NoDup_map_inv with (f := snd). rewrite map_map. exact H.
Qed.

(** [compareScenes] orders the scenes of a list strictly exactly when no two
    of them share both index and key. *)
Lemma strictTotalOrderOn_iff (l : list NavigationScene) :
  strictTotalOrderOn l <-> NoDup (map (fun s => (index s, key s)) l).
Proof.
  split.
  - intros [Hasym _]. apply NoDup_nth_error. intros i j Hi Heq.
    rewrite length_map in Hi. rewrite !nth_error_map in Heq.
    destruct (nth_error l i) as [x |] eqn:Hx;
      [| apply nth_error_None in Hx; lia].
    destruct (nth_error l j) as [y |] eqn:Hy; [| discriminate].
    simpl in Heq. injection Heq as Hidx Hkey.
    destruct (Nat.eq_dec i j) as [Hij | Hij]; [exact Hij | exfalso].
    destruct (Hasym i j x y Hij Hx Hy) as [_ Hno]. apply Hno.
    split; apply sortsBefore_iff; right; auto.
  - intros Hnd. split.
    + intros i j x y Hij Hx Hy.
      assert (Hne : ~ (index x = index y /\ key x = key y)).
      { intros [Hidx Hkey]. apply Hij.
        apply (proj1 (NoDup_nth_error _) Hnd).
        - rewrite length_map. apply nth_error_Some. now rewrite Hx.
        - rewrite !nth_error_map, Hx, Hy. simpl. now rewrite Hidx, Hkey. }
      rewrite !sortsBefore_iff. split.
      * destruct (sceneBefore_total x y) as [H | [H | H]];
          [left; left; exact H | contradiction | right; left; exact H].
      * intros [[H1 | H1] [H2 | [H2 H2']]]; auto.
        exact (sceneBefore_asym _ _ H1 H2).
    + intros x y z _ _ _. apply sortsBefore_trans.
Qed.

(** C10 as amended, comparator strictness: [compareKey(k, k)] is [-1], so
    [compareScenes] never answers [0]; for two scenes of one index and
    different keys [compareScenes(a, b) = -compareScenes(b, a)]; for two
    scenes of one index and one key both orders answer [-1]; so the sort order
    is a strict total order exactly on the lists in which no two scenes share
    both index and key, in particular on every list whose scene keys are
    pairwise distinct. *)
Theorem comparator_strictness :
  (forall k, compareKey k k = (-1)%Z) /\
  (forall a b, compareScenes a b <> 0%Z) /\
  (forall a b, index a = index b -> key a <> key b ->
               compareScenes a b = (- compareScenes b a)%Z) /\
  (forall a b, index a = index b -> key a = key b ->
               compareScenes a b = (-1)%Z /\ compareScenes b a = (-1)%Z) /\
  (forall l, strictTotalOrderOn l <->
             NoDup (map (fun s => (index s, key s)) l)) /\
  (forall l, NoDup (map key l) -> strictTotalOrderOn l).
Proof.
  split_ands.
  - exact compareKey_refl.
  - intros a b. destruct (compareScenes_cases a b); lia.
  - intros a b Hidx Hkey.
    destruct (sceneBefore_total a b) as [H | [[_ H] | H]];
      [| contradiction |].
    + rewrite (proj2 (compareScenes_gt b a) H).
      assert (compareScenes a b = (-1)%Z) as ->
          by (apply compareScenes_lt; now left).
      reflexivity.
    + rewrite (proj2 (compareScenes_gt a b) H).
      assert (compareScenes b a = (-1)%Z) as ->
          by (apply compareScenes_lt; now left).
      reflexivity.
  - intros a b Hidx Hkey. split; apply compareScenes_lt; right; auto.
  - exact strictTotalOrderOn_iff.
  - intros l H. apply strictTotalOrderOn_iff. now apply NoDup_keys_pairs.
Qed.

(** ** Further properties of the reducer *)

(** *** The error that is reported *)

Lemma visitNext_nextKeys (l : list NavigationRoute) :
  forall (i : nat) nk (st fr : SceneMap) (a : ref) nk' (st' fr' : SceneMap)
         (a' : ref),
    forEachM visitNextChild l i (nk, st, fr) a = Normal ((nk', st', fr'), a') ->
    forall k, JSSet.has nk' k =
              JSSet.has nk k || existsb (String.eqb k) (map sceneKey l).
Proof.
  induction l as [|r l IH]; intros i nk st fr a nk' st' fr' a' Hrun k.
  - simpl in Hrun. injection Hrun as <- _ _ _. simpl. now rewrite orb_false_r.
  - rewrite forEachM_cons, visitNextChild_step in Hrun.
    destruct (JSSet.has nk (sceneKey r)); [discriminate |].
    rewrite (IH _ _ _ _ _ _ _ _ _ Hrun k), JSSet_has_add. simpl.
    now rewrite orb_assoc.
Qed.

(** The message: [invariant] of fbjs rewrites the [%s] of its format. *)

Lemma fbjsFormat_cons (c : ascii) (s : string) :
  Ascii.eqb c "%" = false -> fbjsFormat (String c s) = String c (fbjsFormat s).
Proof.
  intros H. destruct s as [|d s]; simpl; [reflexivity |]. now rewrite H.
Qed.

Lemma fbjsFormat_noPercent_app (p s : string) :
  noPercent p = true ->
  fbjsFormat (String.append p s) = String.append p (fbjsFormat s).
Proof.
  induction p as [|c p IH]; intros H; [reflexivity |].
  simpl in H. apply andb_true_iff in H. destruct H as [Hc Hp].
  apply negb_true_iff in Hc.
  change (String.append (String c p) s) with (String c (String.append p s)).
  rewrite (fbjsFormat_cons _ _ Hc), (IH Hp). reflexivity.
Qed.

Lemma fbjsFormat_noPercent (s : string) :
  noPercent s = true -> fbjsFormat s = s.
Proof.
  induction s as [|c s IH]; intros H; [reflexivity |].
  simpl in H. apply andb_true_iff in H. destruct H as [Hc Hs].
  apply negb_true_iff in Hc.
  now rewrite (fbjsFormat_cons _ _ Hc), (IH Hs).
Qed.

(** A key without [%s], followed by a text without [%] that does not begin
    with [s], comes out as it went in. *)
Lemma fbjsFormat_plain (k t : string) :
  containsFormatSpec k = false -> noPercent t = true ->
  (forall t', t <> String "s" t') ->
  fbjsFormat (String.append k t) = String.append k t.
Proof.
  intros Hk Ht Hhd. induction k as [|c k IH].
  - simpl. now apply fbjsFormat_noPercent.
  - destruct k as [|d k].
    + simpl. destruct t as [|e t]; [reflexivity |].
      assert (He : Ascii.eqb e "s" = false).
      { apply Ascii.eqb_neq. intros ->. exact (Hhd t eq_refl). }
      rewrite He, andb_false_r. f_equal. now apply fbjsFormat_noPercent.
    + change (containsFormatSpec (String c (String d k)))
        with ((Ascii.eqb c "%" && Ascii.eqb d "s")
              || containsFormatSpec (String d k)) in Hk.
      apply orb_false_elim in Hk. destruct Hk as [Hcd Hk].
      specialize (IH Hk).
      change (fbjsFormat (String.append (String c (String d k)) t))
        with (if Ascii.eqb c "%" && Ascii.eqb d "s"
              then String.append "undefined" (fbjsFormat (String.append k t))
              else String c (fbjsFormat (String.append (String d k) t))).
      rewrite Hcd, IH. reflexivity.
Qed.

Lemma containsFormatSpec_prefix (p k : string) :
  noPercent p = true ->
  containsFormatSpec (String.append p k) = containsFormatSpec k.
Proof.
  induction p as [|c p IH]; intros H; [reflexivity |].
  simpl in H. apply andb_true_iff in H. destruct H as [Hc Hp].
  apply negb_true_iff in Hc. specialize (IH Hp).
  change (String.append (String c p) k) with (String c (String.append p k)).
  destruct (String.append p k) as [|d rest] eqn:Happ.
  - destruct p; [| discriminate]. simpl in Happ. now subst k.
  - change (containsFormatSpec (String c (String d rest)))
      with ((Ascii.eqb c "%" && Ascii.eqb d "s")
            || containsFormatSpec (String d rest)).
    now rewrite Hc, IH.
Qed.

Lemma noPercent_positionText (n : nat) : noPercent (positionText n) = true.
Proof.
  assert (H : forall d, noPercent (NilEmpty.string_of_uint d) = true)
    by (induction d; simpl; auto).
  unfold positionText, NilZero.string_of_uint.
  destruct (Nat.to_uint n); try apply H. reflexivity.
Qed.

(** For a scene key without [%s] the message of the error is the text of
    lines 104-105 itself. *)
Lemma conflictFormat_plain (n : nat) (k : string) :
  containsFormatSpec k = false ->
  fbjsFormat (conflictFormat n k) = conflictFormat n k.
Proof.
  intros Hk. unfold conflictFormat.
  rewrite fbjsFormat_noPercent_app by reflexivity.
  rewrite fbjsFormat_noPercent_app by apply noPercent_positionText.
  rewrite fbjsFormat_noPercent_app by reflexivity.
  rewrite fbjsFormat_noPercent_app by reflexivity.
  rewrite fbjsFormat_plain; [reflexivity | exact Hk | reflexivity |].
  intros t'. unfold doubleQuote. simpl. discriminate.
Qed.

(** A key that holds [%s] does not reach the message as it is. *)
Lemma conflictFormat_with_spec :
  fbjsFormat (conflictFormat 1 "scene_%s") = conflictFormat 1 "scene_undefined".
Proof. reflexivity. Qed.

(** X1, the error of a duplicate key: off the fast path, when the route at
    position [n] of [nextState.children] is the first whose key repeats the
    key of an earlier child, the invariant fails at that route.  The message
    of the error is the text of lines 104-105 for the position [n] and the
    scene key of that route, after [invariant] of fbjs replaced every [%s] in
    it; when the key of the route holds no [%s] the message is that text
    itself, with [n] and the scene key in it. *)
Theorem duplicate_key_report (scenes : SceneArray)
  (nextState : NavigationState) (prevState : option NavigationState)
  (a : ref) (l1 l2 : list NavigationRoute) (r : NavigationRoute) :
  same_state prevState nextState = false ->
  children nextState = l1 ++ r :: l2 ->
  NoDup (map route_key l1) ->
  In (route_key r) (map route_key l1) ->
  NavigationScenesReducer scenes nextState prevState a =
    Throw (InvariantViolation
             (fbjsFormat (conflictFormat (List.length l1) (sceneKey r)))) /\
  (containsFormatSpec (route_key r) = false ->
   NavigationScenesReducer scenes nextState prevState a =
     Throw (InvariantViolation
              (conflictFormat (List.length l1)
                 (String.append SCENE_KEY_PREFIX (route_key r))))).
Proof.
  intros Hslow Hch Hnd Hin.
  assert (Hthrow :
            NavigationScenesReducer scenes nextState prevState a =
            Throw (InvariantViolation
                     (fbjsFormat
                        (conflictFormat (List.length l1) (sceneKey r))))).
  { rewrite (reducer_slow _ _ _ _ Hslow), classifyScenes_unfold. cbv zeta.
    rewrite Hch, forEachM_app.
    apply NoDup_sceneKey in Hnd.
    destruct (visitNext_ok l1 0 JSSet.empty
                (snd (fold_left populateScene (elems scenes)
                        (JSMap.empty, JSMap.empty)))
                JSMap.empty a Hnd) as (nk & st & Hrun & _);
      [reflexivity | intros r' _ [] |].
    rewrite Hrun, forEachM_cons, visitNextChild_step.
    assert (Hhas : JSSet.has nk (sceneKey r) = true).
    { rewrite (visitNext_nextKeys _ _ _ _ _ _ _ _ _ _ Hrun). simpl.
      apply existsb_exists. apply in_map_iff in Hin.
      destruct Hin as (r' & Hk & Hr'). exists (sceneKey r'). split.
      - now apply in_map.
      - apply String.eqb_eq. unfold sceneKey. now rewrite Hk. }
    now rewrite Hhas. }
  split; [exact Hthrow |].
  intros Hplain. rewrite Hthrow. do 2 f_equal.
  apply conflictFormat_plain. unfold sceneKey.
  now rewrite containsFormatSpec_prefix.
Qed.

(** *** A previous state none of whose children left *)

Lemma visitPrev_skip (fr : SceneMap) (l : list NavigationRoute) :
  forall (i : nat) (st : SceneMap) (a : ref),
    (forall r, In r l -> JSMap.has fr (sceneKey r) = true) ->
    forEachM (visitPrevChild fr) l i st a = Normal (st, a).
Proof.
  induction l as [|r l IH]; intros i st a H; [reflexivity |].
  rewrite forEachM_cons, visitPrevChild_step, (H r) by now left.
  apply IH. intros r' Hr'. apply H. now right.
Qed.

(** X5, a previous state matters only through the children that left: when
    every child of [prevState] has the scene key of a child of [nextState],
    the reducer does what it does without a previous state. *)
Theorem prevState_without_removed_route (scenes : SceneArray)
  (nextState p : NavigationState) (a : ref) :
  p <> nextState ->
  (forall r, In r (children p) ->
             In (sceneKey r) (map sceneKey (children nextState))) ->
  NavigationScenesReducer scenes nextState (Some p) a =
  NavigationScenesReducer scenes nextState None a.
Proof.
  intros Hne Hsub.
  assert (Hslow : same_state (Some p) nextState = false)
    by (simpl; now apply Nat.eqb_neq).
  rewrite (reducer_slow _ _ _ _ Hslow), (reducer_slow _ _ None _ eq_refl).
  rewrite !classifyScenes_unfold. cbv zeta.
  destruct (NoDup_dec string_dec (map sceneKey (children nextState)))
    as [Hnd | Hnd].
  - destruct (visitNext_ok (children nextState) 0 JSSet.empty
                (snd (fold_left populateScene (elems scenes)
                        (JSMap.empty, JSMap.empty)))
                JSMap.empty a Hnd) as (nk & st & Hrun & _);
      [reflexivity | intros r' _ [] |].
    rewrite Hrun. simpl app. rewrite visitPrev_skip; [reflexivity |].
    intros r Hr. apply JSMap_has_In_keys. rewrite keys_freshEntries.
    now apply Hsub.
  - destruct (visitNext_throw (children nextState) 0 JSSet.empty
                (snd (fold_left populateScene (elems scenes)
                        (JSMap.empty, JSMap.empty)))
                JSMap.empty a) as (e & ->); [| reflexivity].
    intros [H _]. exact (Hnd H).
Qed.

(** *** Where the scenes of the maps come from *)

Lemma populate_stale_In (l : list NavigationScene) acc (k : string)
  (s : NavigationScene) :
  In (k, s) (snd (fold_left populateScene l acc)) ->
  In (k, s) (snd acc) \/ (In s l /\ isStale s = true /\ key s = k).
Proof.
  revert acc. induction l as [|q l IH]; intros [pm st] H; simpl in *;
    [now left |].
  destruct (IH _ H) as [H' | (H1 & H2 & H3)]; [| right; auto].
  simpl in H'. destruct (isStale q) eqn:Hq; [| now left].
  apply JSMap_In_set in H'. destruct H' as [[= -> ->] | H']; [| now left].
  right. auto.
Qed.

Lemma populate_prev_In (l : list NavigationScene) acc (k : string)
  (p : NavigationScene) :
  JSMap.get (fst (fold_left populateScene l acc)) k = Some p ->
  JSMap.get (fst acc) k = Some p \/ (In p l /\ key p = k).
Proof.
  revert acc. induction l as [|q l IH]; intros [pm st] H; simpl in *;
    [now left |].
  destruct (IH _ H) as [H' | (H1 & H2)]; [| right; auto].
  simpl in H'. rewrite JSMap_get_set in H'.
  destruct (String.eqb_spec (key q) k) as [Hk | Hk]; [| now left].
  injection H' as <-. right. auto.
Qed.

Lemma visitPrev_entries (fr : SceneMap) (l : list NavigationRoute) :
  forall (i : nat) (st : SceneMap) (a : ref) (st' : SceneMap) (a' : ref),
    forEachM (visitPrevChild fr) l i st a = Normal (st', a') ->
    a <= a' /\
    forall k s,
      In (k, s) st' ->
      In (k, s) st \/
      exists j r ref,
        nth_error l j = Some r /\ k = sceneKey r /\
        JSMap.has fr k = false /\
        s = mkScene ref (Z.of_nat (i + j)) true k r /\ a <= ref < a'.
Proof.
  induction l as [|r l IH]; intros i st a st' a' Hrun.
  - simpl in Hrun. injection Hrun as <- <-. split; [lia | now left].
  - rewrite forEachM_cons, visitPrevChild_step in Hrun.
    destruct (JSMap.has fr (sceneKey r)) eqn:Hfr.
    + destruct (IH _ _ _ _ _ Hrun) as [Hle Hin]. split; [exact Hle |].
      intros k s Hks. destruct (Hin k s Hks)
        as [H | (j & r' & ref & Hj & Hk & Hh & Hs & Hb)]; [now left |].
      right. exists (S j), r', ref. rewrite Nat.add_succ_r. auto.
    + destruct (IH _ _ _ _ _ Hrun) as [Hle Hin]. split; [lia |].
      intros k s Hks. destruct (Hin k s Hks)
        as [H | (j & r' & ref & Hj & Hk & Hh & Hs & Hb)].
      * apply JSMap_In_set in H. destruct H as [[= -> ->] | H]; [| now left].
        right. exists 0, r, a. rewrite Nat.add_0_r.
        split_ands; auto; lia.
      * right. exists (S j), r', ref. rewrite Nat.add_succ_r.
        split_ands; auto; lia.
Qed.

(** The maps of a call that got to the merge: the fresh scenes are the new
    scenes of the children of [nextState], and a stale scene is a stale
    previous scene or a new scene of a child of [prevState]. *)
Lemma classifyScenes_origin (scenes : list NavigationScene)
  (nextState : NavigationState) (prevState : option NavigationState)
  (a a1 : ref) (maps : SceneMaps) :
  classifyScenes scenes nextState prevState a = Normal (maps, a1) ->
  NoDup (map sceneKey (children nextState)) /\
  a + List.length (children nextState) <= a1 /\
  freshScenes maps = freshEntries a 0 (children nextState) /\
  prevScenes maps =
    fst (fold_left populateScene scenes (JSMap.empty, JSMap.empty)) /\
  forall k s,
    In (k, s) (staleScenes maps) ->
    (In s scenes /\ isStale s = true /\ key s = k) \/
    exists p j r ref,
      prevState = Some p /\ nth_error (children p) j = Some r /\
      k = sceneKey r /\ s = mkScene ref (Z.of_nat j) true k r /\
      a + List.length (children nextState) <= ref < a1.
Proof.
  intros Hcl.
  assert (Hnd : NoDup (map sceneKey (children nextState))).
  { destruct (NoDup_dec string_dec (map sceneKey (children nextState)))
      as [H | H]; [exact H |].
    destruct (classifyScenes_throw scenes nextState prevState a H)
      as (e & He). congruence. }
  split; [exact Hnd |].
  rewrite classifyScenes_unfold in Hcl. cbv zeta in Hcl.
  destruct (visitNext_ok (children nextState) 0 JSSet.empty
              (snd (fold_left populateScene scenes (JSMap.empty, JSMap.empty)))
              JSMap.empty a Hnd) as (nk & st & Hrun & _ & Hin1 & _);
    [reflexivity | intros r' _ [] |].
  rewrite Hrun in Hcl. simpl app in Hcl.
  assert (Hpop : forall k s,
             In (k, s) st -> In s scenes /\ isStale s = true /\ key s = k).
  { intros k s H. apply Hin1 in H. apply populate_stale_In in H.
    destruct H as [[] | H]. exact H. }
  destruct prevState as [p |].
  - destruct (forEachM (visitPrevChild (freshEntries a 0 (children nextState)))
                (children p) 0 st (a + List.length (children nextState)))
      as [[st2 a2] | e] eqn:Hrun2; [| discriminate].
    injection Hcl as <- <-. simpl.
    destruct (visitPrev_entries _ _ _ _ _ _ _ Hrun2) as [Hle Hin2].
    split_ands; auto.
    intros k s H. destruct (Hin2 k s H)
      as [H' | (j & r & ref & Hj & Hk & _ & Hs & Hb)]; [left; auto |].
    right. exists p, j, r, ref. auto.
  - injection Hcl as <- <-. simpl. split_ands; auto.
Qed.

Lemma freshEntries_values_In (a i : nat) (l : list NavigationRoute)
  (c : NavigationScene) :
  In c (JSMap.values (freshEntries a i l)) <->
  exists j r, nth_error l j = Some r /\
              c = mkScene (a + j) (Z.of_nat (i + j)) false (sceneKey r) r.
Proof.
  rewrite JSMap_In_values. split.
  - intros (k & H). apply freshEntries_In in H.
    destruct H as (j & r & Hj & _ & Hc). eauto.
  - intros (j & r & Hj & Hc). exists (sceneKey r).
    apply freshEntries_In. eauto.
Qed.

(** What a call that rebuilt the scenes returned, by its maps. *)
Lemma reducer_returned (scenes out : SceneArray)
  (nextState : NavigationState) (prevState : option NavigationState)
  (a a' : ref) :
  same_state prevState nextState = false ->
  NavigationScenesReducer scenes nextState prevState a = Normal (out, a') ->
  exists maps a1,
    classifyScenes (elems scenes) nextState prevState a = Normal (maps, a1) /\
    out = mkArray a1 (sort compareScenes (mergeScenes maps)) /\ a' = S a1.
Proof.
  intros Hslow Hrun. rewrite (reducer_slow _ _ _ _ Hslow) in Hrun.
  destruct (classifyScenes (elems scenes) nextState prevState a)
    as [[maps a1] | e]; [| discriminate].
  injection Hrun as <- <-. eauto.
Qed.

(** X3, nothing else is returned: every scene of the array returned by a
    call off the fast path is either a scene that is not stale, of the child
    of [nextState] at the position of its index and under the scene key of
    that child, or a stale scene under a key that no child of [nextState]
    has; and a stale scene has the key, index and route of a stale previous
    scene, or is the scene of a child of [prevState] at the position of its
    index. *)
Theorem output_scene_origin (scenes out : SceneArray)
  (nextState : NavigationState) (prevState : option NavigationState)
  (a a' : ref) (s : NavigationScene) :
  same_state prevState nextState = false ->
  NavigationScenesReducer scenes nextState prevState a = Normal (out, a') ->
  In s (elems out) ->
  (isStale s = false /\
   exists i, nth_error (children nextState) i = Some (route s) /\
             index s = Z.of_nat i /\ key s = sceneKey (route s)) \/
  (isStale s = true /\
   ~ In (key s) (map sceneKey (children nextState)) /\
   ((exists q, In q (elems scenes) /\ isStale q = true /\
               key q = key s /\ index q = index s /\ route q = route s) \/
    (exists p j, prevState = Some p /\
                 nth_error (children p) j = Some (route s) /\
                 index s = Z.of_nat j /\ key s = sceneKey (route s)))).
Proof.
  intros Hslow Hrun Hs.
  destruct (reducer_returned _ _ _ _ _ _ Hslow Hrun)
    as (maps & a1 & Hcl & -> & ->). simpl in Hs.
  destruct (classifyScenes_origin _ _ _ _ _ _ Hcl)
    as (Hnd & _ & Hfr & _ & Hst).
  destruct (reducer_rebuilds scenes nextState prevState a Hslow Hnd)
    as (maps' & a1' & Hcl' & _ & _ & _ & _ & _ & Hdisj & _).
  assert (maps' = maps) by congruence. subst maps'.
  apply In_sort_mergeScenes, mergeScenes_In in Hs.
  destruct Hs as (c & Hc & ->).
  destruct (mergeScene_fields (prevScenes maps) c) as (Hk & Hi & Hst' & Hr).
  rewrite Hk, Hi, Hst', Hr. destruct Hc as [Hc | Hc].
  - right. apply JSMap_In_values in Hc. destruct Hc as (k & Hc).
    assert (Hkeys : In k (JSMap.keys (staleScenes maps)))
      by (eapply JSMap_In_keys; eauto).
    destruct (Hst k c Hc)
      as [(Hin & Hstale & Hkey) | (p & j & r & ref & Hp & Hj & Hkey & -> & _)].
    + split; [exact Hstale |]. split; [rewrite Hkey; now apply Hdisj |].
      left. exists c. auto.
    + simpl. split; [reflexivity |]. split; [now apply Hdisj |].
      right. exists p, j. subst k. auto.
  - left. rewrite Hfr in Hc. apply freshEntries_values_In in Hc.
    destruct Hc as (j & r & Hj & ->). simpl. split; [reflexivity |].
    exists j. auto.
Qed.

(** X4, the objects that are returned: the array returned by a call off the
    fast path is a new object, and each of its scenes is one of the previous
    scene objects or an object made by this call. *)
Theorem output_object_provenance (scenes out : SceneArray)
  (nextState : NavigationState) (prevState : option NavigationState)
  (a a' : ref) :
  same_state prevState nextState = false ->
  NavigationScenesReducer scenes nextState prevState a = Normal (out, a') ->
  a <= array_ref out < a' /\
  forall s, In s (elems out) ->
            In s (elems scenes) \/ a <= scene_ref s < array_ref out.
Proof.
  intros Hslow Hrun.
  destruct (reducer_returned _ _ _ _ _ _ Hslow Hrun)
    as (maps & a1 & Hcl & -> & ->). simpl.
  destruct (classifyScenes_origin _ _ _ _ _ _ Hcl)
    as (_ & Hle & Hfr & Hprev & Hst).
  split; [lia |]. intros s Hs.
  apply In_sort_mergeScenes, mergeScenes_In in Hs.
  destruct Hs as (c & Hc & ->).
  destruct (mergeScene_cases (prevScenes maps) c)
    as [-> | (p & Hget & _ & ->)].
  - destruct Hc as [Hc | Hc].
    + apply JSMap_In_values in Hc. destruct Hc as (k & Hc).
      destruct (Hst k c Hc)
        as [(Hin & _) | (p & j & r & ref & _ & _ & _ & -> & Hb)];
        [now left | right; simpl; lia].
    + rewrite Hfr in Hc. apply freshEntries_values_In in Hc.
      destruct Hc as (j & r & Hj & ->). right. simpl.
      assert (j < List.length (children nextState))
        by (apply nth_error_Some; congruence).
      lia.
  - left. rewrite Hprev in Hget. apply populate_prev_In in Hget.
    destruct Hget as [Hget | [Hin _]]; [discriminate | exact Hin].
Qed.

(** *** The scenes that are not stale, in order *)

Lemma filter_none (A : Type) (P : A -> bool) (l : list A) :
  (forall x, In x l -> P x = false) -> filter P l = [].
Proof.
  induction l as [|x l IH]; intros H; simpl; [reflexivity |].
  rewrite (H x) by now left. apply IH. intros y Hy. apply H. now right.
Qed.

Lemma filter_all (A : Type) (P : A -> bool) (l : list A) :
  (forall x, In x l -> P x = true) -> filter P l = l.
Proof.
  induction l as [|x l IH]; intros H; simpl; [reflexivity |].
  rewrite (H x) by now left. f_equal. apply IH. intros y Hy. apply H. now right.
Qed.

Lemma filter_Permutation (A : Type) (P : A -> bool) (l l' : list A) :
  Permutation l l' -> Permutation (filter P l) (filter P l').
Proof.
  induction 1 as [| x l l' _ IH | x y l | l l' l'' _ IH1 _ IH2]; simpl.
  - constructor.
  - destruct (P x); [now constructor | exact IH].
  - destruct (P x), (P y); try reflexivity. apply perm_swap.
  - now transitivity (filter P l').
Qed.

Lemma filter_StronglySorted (A : Type) (R : A -> A -> Prop) (P : A -> bool)
  (l : list A) :
  StronglySorted R l -> StronglySorted R (filter P l).
Proof.
  induction 1 as [|x l Hs IH Hx]; simpl; [constructor |].
  destruct (P x); [| exact IH]. constructor; [exact IH |].
  rewrite Forall_forall in *. intros y Hy. apply filter_In in Hy.
  destruct Hy as [Hy _]. now apply Hx.
Qed.

Lemma fresh_merged_sorted (prev : SceneMap) (l : list NavigationRoute) :
  forall a i,
    StronglySorted sceneBefore
      (map (mergeScene prev) (JSMap.values (freshEntries a i l))).
Proof.
  induction l as [|r l IH]; intros a i; simpl; [constructor |].
  constructor; [apply IH |]. rewrite Forall_forall. intros y Hy.
  apply in_map_iff in Hy. destruct Hy as (c & <- & Hc).
  apply freshEntries_values_In in Hc. destruct Hc as (j & r' & _ & ->).
  left.
  destruct (mergeScene_fields prev
              (mkScene a (Z.of_nat i) false (sceneKey r) r))
    as (_ & -> & _).
  destruct (mergeScene_fields prev
              (mkScene (S a + j) (Z.of_nat (S i + j)) false (sceneKey r') r'))
    as (_ & -> & _).
  simpl. lia.
Qed.

Lemma fresh_merged_routes (prev : SceneMap) (l : list NavigationRoute) :
  forall a i,
    map route (map (mergeScene prev) (JSMap.values (freshEntries a i l))) = l /\
    map index (map (mergeScene prev) (JSMap.values (freshEntries a i l)))
    = map Z.of_nat (seq i (List.length l)).
Proof.
  induction l as [|r l IH]; intros a i; simpl; [split; reflexivity |].
  destruct (IH (S a) (S i)) as [-> ->].
  destruct (mergeScene_fields prev
              (mkScene a (Z.of_nat i) false (sceneKey r) r))
    as (_ & -> & _ & ->).
  split; reflexivity.
Qed.

(** X2, the scenes that are not stale: in the array returned by a call off
    the fast path they stand in the order of [nextState.children], one for
    each child, with the indices 0, 1, 2, ... *)
Theorem fresh_scenes_in_order (scenes out : SceneArray)
  (nextState : NavigationState) (prevState : option NavigationState)
  (a a' : ref) :
  same_state prevState nextState = false ->
  NavigationScenesReducer scenes nextState prevState a = Normal (out, a') ->
  map route (filter (fun s => negb (isStale s)) (elems out))
  = children nextState /\
  map index (filter (fun s => negb (isStale s)) (elems out))
  = map Z.of_nat (seq 0 (List.length (children nextState))).
Proof.
  intros Hslow Hrun.
  destruct (reducer_sorted _ _ _ _ _ _ Hslow Hrun) as [_ Hsorted].
  destruct (reducer_returned _ _ _ _ _ _ Hslow Hrun)
    as (maps & a1 & Hcl & -> & ->). simpl in *.
  destruct (classifyScenes_origin _ _ _ _ _ _ Hcl)
    as (Hnd & _ & Hfr & _ & Hst).
  set (P := fun s => negb (isStale s)).
  set (F := map (mergeScene (prevScenes maps))
              (JSMap.values (freshScenes maps))).
  assert (HF : filter P (mergeScenes maps) = F).
  { unfold mergeScenes. rewrite filter_app, filter_none, filter_all.
    - reflexivity.
    - intros s Hs. apply in_map_iff in Hs. destruct Hs as (c & <- & Hc).
      rewrite Hfr in Hc. apply freshEntries_values_In in Hc.
      destruct Hc as (j & r & _ & ->). unfold P.
      destruct (mergeScene_fields (prevScenes maps)
                  (mkScene (a + j) (Z.of_nat (0 + j)) false (sceneKey r) r))
        as (_ & _ & -> & _).
      reflexivity.
    - intros s Hs. apply in_map_iff in Hs. destruct Hs as (c & <- & Hc).
      apply JSMap_In_values in Hc. destruct Hc as (k & Hc). unfold P.
      destruct (mergeScene_fields (prevScenes maps) c) as (_ & _ & -> & _).
      destruct (Hst k c Hc)
        as [(_ & -> & _) | (p & j & r & ref & _ & _ & _ & -> & _)];
        reflexivity. }
  assert (Heq : filter P (sort compareScenes (mergeScenes maps)) = F).
  { apply (StronglySorted_perm_eq _ _ sceneBefore_irrefl sceneBefore_trans).
    - now apply filter_StronglySorted.
    - unfold F. rewrite Hfr. apply fresh_merged_sorted.
    - rewrite <- HF. apply filter_Permutation. symmetry. apply sort_perm. }
  rewrite Heq. unfold F. rewrite Hfr. apply fresh_merged_routes.
Qed.

(** *** Reuse and its limits *)

Lemma areScenesShallowEqual_fields (one two : NavigationScene) :
  key one = key two -> index one = index two ->
  isStale one = isStale two -> route one = route two ->
  areScenesShallowEqual one two = true.
Proof.
  intros Hk Hi Hs Hr. unfold areScenesShallowEqual.
  rewrite Hk, Hi, Hs, Hr.
  now rewrite !String.eqb_refl, Z.eqb_refl, Bool.eqb_reflx, Nat.eqb_refl.
Qed.

(** The last previous scene with a key is the one [prevScenes] has. *)
Lemma prevScenes_get (l : list NavigationScene) (s : NavigationScene) :
  NoDup (map key l) -> In s l ->
  JSMap.get (fst (fold_left populateScene l (JSMap.empty, JSMap.empty)))
    (key s) = Some s.
Proof.
  intros Hnd Hs. destruct (in_split _ _ Hs) as (l1 & l2 & ->).
  apply populate_prev_last. exact (NoDup_map_later _ _ key _ _ _ Hnd).
Qed.

Lemma staleScenes_get (l : list NavigationScene) (s : NavigationScene) :
  NoDup (map key l) -> In s l -> isStale s = true ->
  In (key s, s)
    (snd (fold_left populateScene l (JSMap.empty, JSMap.empty))).
Proof.
  intros Hnd Hs Hstale. destruct (in_split _ _ Hs) as (l1 & l2 & ->).
  apply JSMap_get_In. apply populate_stale_last; [| exact Hstale].
  exact (NoDup_map_later _ _ key _ _ _ Hnd).
Qed.

(** The kind of a returned scene, and the scene of a child. *)
Lemma output_scene_kind (scenes out : SceneArray)
  (nextState : NavigationState) (prevState : option NavigationState)
  (a a' : ref) (s : NavigationScene) :
  same_state prevState nextState = false ->
  NavigationScenesReducer scenes nextState prevState a = Normal (out, a') ->
  In s (elems out) ->
  (isStale s = true /\
   ~ In (key s) (map sceneKey (children nextState))) \/
  (isStale s = false /\
   exists i, nth_error (children nextState) i = Some (route s) /\
             index s = Z.of_nat i /\ key s = sceneKey (route s)).
Proof.
  intros Hslow Hrun Hs.
  pose proof (reducer_returns_NoDup _ _ _ _ _ _ Hslow Hrun) as Hnd.
  destruct (reducer_rebuilds scenes nextState prevState a Hslow Hnd)
    as (maps & a1 & _ & Hred & _ & Hfr & _ & Hse & Hdisj & _).
  rewrite Hred in Hrun. injection Hrun as <- <-. simpl in Hs.
  apply In_sort_mergeScenes, mergeScenes_In in Hs.
  destruct Hs as (c & Hc & ->).
  destruct (mergeScene_fields (prevScenes maps) c) as (Hk & Hi & Hst & Hr).
  rewrite Hk, Hi, Hst, Hr. destruct Hc as [Hc | Hc].
  - left. apply JSMap_In_values in Hc. destruct Hc as (k & Hc).
    destruct (Hse k c Hc) as [Hkey Hstale]. split; [exact Hstale |].
    rewrite Hkey. apply Hdisj. eapply JSMap_In_keys; eauto.
  - right. rewrite Hfr in Hc. apply freshEntries_values_In in Hc.
    destruct Hc as (j & r & Hj & ->). simpl. split; [reflexivity |].
    exists j. auto.
Qed.

Lemma output_scene_of_child (scenes out : SceneArray)
  (nextState : NavigationState) (prevState : option NavigationState)
  (a a' : ref) (i : nat) (r : NavigationRoute) :
  same_state prevState nextState = false ->
  NavigationScenesReducer scenes nextState prevState a = Normal (out, a') ->
  nth_error (children nextState) i = Some r ->
  exists s, In s (elems out) /\ isStale s = false /\ route s = r /\
            index s = Z.of_nat i /\ key s = sceneKey r.
Proof.
  intros Hslow Hrun Hi.
  pose proof (reducer_returns_NoDup _ _ _ _ _ _ Hslow Hrun) as Hnd.
  destruct (reducer_rebuilds scenes nextState prevState a Hslow Hnd)
    as (maps & a1 & _ & Hred & _ & Hfr & _).
  rewrite Hred in Hrun. injection Hrun as <- <-. simpl.
  set (c := mkScene (a + i) (Z.of_nat (0 + i)) false (sceneKey r) r).
  exists (mergeScene (prevScenes maps) c).
  destruct (mergeScene_fields (prevScenes maps) c) as (Hk & Hidx & Hst & Hr).
  split; [| auto].
  apply In_sort_mergeScenes, mergeScenes_In. exists c. split; [| reflexivity].
  right. rewrite Hfr. apply freshEntries_values_In. exists i, r. auto.
Qed.

(** X6, a state that only changed its identity: when the array returned by a
    call off the fast path is fed back with that call's [nextState] as
    [prevState] and a new state object with the same children as
    [nextState], the reducer returns, and the new array holds the very same
    scene objects in the same order. *)
Theorem reconcile_same_children (scenes0 out1 : SceneArray)
  (T T' : NavigationState) (prevState1 : option NavigationState)
  (a0 a1 a : ref) :
  same_state prevState1 T = false ->
  NavigationScenesReducer scenes0 T prevState1 a0 = Normal (out1, a1) ->
  T <> T' -> children T' = children T ->
  exists out2 a2,
    NavigationScenesReducer out1 T' (Some T) a = Normal (out2, a2) /\
    elems out2 = elems out1.
Proof.
  intros Hslow1 Hrun1 Hne Hch.
  assert (Hslow2 : same_state (Some T) T' = false)
    by (simpl; now apply Nat.eqb_neq).
  destruct (reducer_sorted _ _ _ _ _ _ Hslow1 Hrun1) as [Hnd1 _].
  assert (Hsorted1 : StronglySorted (notAfter compareScenes) (elems out1)).
  { destruct (reducer_returned _ _ _ _ _ _ Hslow1 Hrun1)
      as (maps1 & b & _ & -> & _). apply sort_scenes_StronglySorted. }
  assert (Hnd2 : NoDup (map sceneKey (children T')))
    by (rewrite Hch; exact (reducer_returns_NoDup _ _ _ _ _ _ Hslow1 Hrun1)).
  destruct (reducer_rebuilds out1 T' (Some T) a Hslow2 Hnd2)
    as (maps & a2 & Hcl & _ & Hprev & Hfr & _ & _ & Hdisj & Hkeep & _ & Hout).
  destruct (classifyScenes_origin _ _ _ _ _ _ Hcl) as (_ & _ & _ & _ & Hst).
  assert (Hreuse : forall s c,
             In s (elems out1) -> key c = key s -> index c = index s ->
             isStale c = isStale s -> route c = route s ->
             mergeScene (prevScenes maps) c = s).
  { intros s c Hs Hk Hi Hstale Hr. apply mergeScene_reuse.
    - rewrite Hprev, Hk. now apply prevScenes_get.
    - now apply areScenesShallowEqual_fields. }
  exists (mkArray a2 (elems out1)), (S a2). split; [| reflexivity].
  apply reducer_order_canonical with (maps := maps); auto.
  apply NoDup_Permutation.
  - apply NoDup_map_inv with (f := key).
    eapply Permutation_NoDup; [| exact Hout].
    apply Permutation_map. symmetry. apply sort_perm.
  - now apply NoDup_map_inv with (f := key).
  - intros s. rewrite mergeScenes_In. split.
    + intros (c & [Hc | Hc] & ->).
      * apply JSMap_In_values in Hc. destruct Hc as (k & Hc).
        destruct (Hst k c Hc)
          as [(Hin & _) | (p & j & r & ref & [= <-] & Hj & -> & _)].
        -- now rewrite (Hreuse c c).
        -- exfalso.
           apply (Hdisj (sceneKey r)); [eapply JSMap_In_keys; eauto |].
           rewrite Hch. apply in_map. eapply nth_error_In; eauto.
      * rewrite Hfr in Hc. apply freshEntries_values_In in Hc.
        destruct Hc as (j & r & Hj & ->). rewrite Hch in Hj.
        destruct (output_scene_of_child _ _ _ _ _ _ _ _ Hslow1 Hrun1 Hj)
          as (s1 & Hs1 & Hstale & Hr & Hi & Hk).
        rewrite (Hreuse s1); simpl; auto.
    + intros Hs.
      destruct (output_scene_kind _ _ _ _ _ _ _ Hslow1 Hrun1 Hs)
        as [[Hstale Hkey] | [Hstale (i & Hi & Hidx & Hkey)]].
      * exists s. split; [| symmetry; now apply Hreuse].
        left. apply JSMap_In_values. exists (key s).
        apply (Hkeep (key s, s)).
        -- now apply staleScenes_get.
        -- simpl. now rewrite Hch.
        -- intros p [= <-]. exact Hkey.
      * exists (mkScene (a + i) (Z.of_nat (0 + i)) false
                  (sceneKey (route s)) (route s)).
        split; [| symmetry; apply Hreuse; simpl; auto].
        right. rewrite Hfr. apply freshEntries_values_In.
        exists i, (route s). rewrite Hch. auto.
Qed.

Lemma areScenesShallowEqual_differs (one two : NavigationScene) :
  index one <> index two \/ isStale one <> isStale two \/
  route one <> route two ->
  areScenesShallowEqual one two = false.
Proof.
  intros H. destruct (areScenesShallowEqual one two) eqn:Heq; [| reflexivity].
  apply areScenesShallowEqual_true in Heq.
  destruct Heq as (_ & Hi & Hs & Hr).
  destruct H as [H | [H | H]]; contradiction.
Qed.

(** X7, no reuse of a scene that changed: for the child [r] of [nextState]
    at position [i], when no previous scene has its scene key, or the last
    previous scene with that key has another index, is stale or has another
    route, the returned array holds the scene object made for [r] by this
    call. *)
Theorem changed_scene_is_new (scenes : SceneArray)
  (nextState : NavigationState) (prevState : option NavigationState)
  (a : ref) (i : nat) (r : NavigationRoute) :
  same_state prevState nextState = false ->
  NoDup (map route_key (children nextState)) ->
  nth_error (children nextState) i = Some r ->
  (forall q, In q (elems scenes) -> key q <> sceneKey r) \/
  (exists l1 p l2,
      elems scenes = l1 ++ p :: l2 /\ key p = sceneKey r /\
      (forall q, In q l2 -> key q <> sceneKey r) /\
      (index p <> Z.of_nat i \/ isStale p = true \/ route p <> r)) ->
  exists out a',
    NavigationScenesReducer scenes nextState prevState a = Normal (out, a') /\
    In (mkScene (a + i) (Z.of_nat i) false (sceneKey r) r) (elems out).
Proof.
  intros Hslow Hkeys Hi Hprev.
  apply NoDup_sceneKey in Hkeys.
  destruct (reducer_rebuilds scenes nextState prevState a Hslow Hkeys)
    as (maps & a1 & _ & Hred & Hpm & Hfr & _).
  eexists; eexists. split; [exact Hred |]. simpl.
  set (c := mkScene (a + i) (Z.of_nat i) false (sceneKey r) r).
  apply In_sort_mergeScenes, mergeScenes_In. exists c. split.
  - right. rewrite Hfr. apply freshEntries_values_In. exists i, r. auto.
  - destruct (mergeScene_cases (prevScenes maps) c)
      as [-> | (p' & Hget & Heq & _)]; [reflexivity | exfalso].
    rewrite Hpm in Hget. simpl in Hget.
    destruct Hprev as [Hnone | (l1 & p & l2 & Hsplit & Hk & Hlater & Hdiff)].
    + rewrite populate_prev_other in Hget by exact Hnone. discriminate.
    + rewrite Hsplit, <- Hk in Hget.
      rewrite populate_prev_last in Hget by (now rewrite Hk).
      injection Hget as <-.
      rewrite areScenesShallowEqual_differs in Heq; [discriminate |].
      simpl. destruct Hdiff as [H | [H | H]]; auto.
      right. left. rewrite H. discriminate.
Qed.

(** *** [compareKey] on numerals *)

Lemma ascii_compare_nat (c d : ascii) :
  Ascii.compare c d = Nat.compare (nat_of_ascii c) (nat_of_ascii d).
Proof.
  unfold Ascii.compare, nat_of_ascii. apply N2Nat.inj_compare.
Qed.

Lemma isDigit_value (c : ascii) :
  isDigit c = true ->
  nat_of_ascii c = 48 + digitValue c /\ digitValue c <= 9.
Proof.
  unfold isDigit, digitValue. rewrite andb_true_iff.
  rewrite !Nat.leb_le. lia.
Qed.

Lemma allDigits_bound (s : string) :
  allDigits s = true -> numeralValue s < 10 ^ String.length s.
Proof.
  induction s as [|c s IH]; simpl; [lia |].
  rewrite andb_true_iff. intros [Hc Hs].
  destruct (isDigit_value c Hc) as [_ Hd]. specialize (IH Hs).
  rewrite Nat.add_0_r. nia.
Qed.

Lemma numeral_lower_bound (c : ascii) (s : string) :
  isNumeral (String c s) = true -> s <> EmptyString ->
  10 ^ String.length s <= numeralValue (String c s).
Proof.
  unfold isNumeral. rewrite andb_true_iff, orb_true_iff. simpl allDigits.
  rewrite andb_true_iff. intros [[Hc _] [Hz | He]] Hs.
  - destruct (isDigit_value c Hc) as [Hn _].
    assert (digitValue c <> 0).
    { intros H0. apply negb_true_iff, Ascii.eqb_neq in Hz. apply Hz.
      rewrite <- (ascii_nat_embedding c), Hn, H0. reflexivity. }
    simpl. nia.
  - apply String.eqb_eq in He. contradiction.
Qed.

Lemma isNumeral_allDigits (s : string) :
  isNumeral s = true -> allDigits s = true.
Proof.
  destruct s as [|c s]; [discriminate |]. unfold isNumeral.
  rewrite andb_true_iff. intros [H _]. exact H.
Qed.

Lemma numeral_shorter (s t : string) :
  isNumeral s = true -> isNumeral t = true ->
  String.length s < String.length t -> numeralValue s < numeralValue t.
Proof.
  intros Hs Ht Hlen.
  pose proof (allDigits_bound s (isNumeral_allDigits s Hs)) as Hb.
  destruct t as [|c t]; [discriminate |].
  destruct s as [|d s]; [discriminate |].
  assert (Hne : t <> EmptyString)
    by (intros ->; simpl in Hlen; lia).
  pose proof (numeral_lower_bound c t Ht Hne) as Hl.
  assert (10 ^ String.length (String d s) <= 10 ^ String.length t)
    by (apply Nat.pow_le_mono_r; simpl in *; lia).
  lia.
Qed.

Lemma digits_lexicographic (s : string) :
  forall t,
    allDigits s = true -> allDigits t = true ->
    String.length s = String.length t ->
    String.compare s t = Lt -> numeralValue s < numeralValue t.
Proof.
  induction s as [|c s IH]; intros [|d t]; simpl; try discriminate.
  rewrite !andb_true_iff. intros [Hc Hs] [Hd Ht] [= Hlen].
  rewrite ascii_compare_nat, <- Hlen.
  destruct (isDigit_value c Hc) as [Hnc _].
  destruct (isDigit_value d Hd) as [Hnd _].
  pose proof (allDigits_bound s Hs) as Hb.
  destruct (Nat.compare_spec (nat_of_ascii c) (nat_of_ascii d))
    as [Heq | Hlt | Hgt]; try discriminate.
  - intros Hcmp. specialize (IH t Hs Ht Hlen Hcmp).
    assert (digitValue c = digitValue d) as -> by lia. lia.
  - intros _. assert (digitValue c < digitValue d) by lia. nia.
Qed.

Lemma keyBefore_numerals (s t : string) :
  isNumeral s = true -> isNumeral t = true ->
  keyBefore s t -> numeralValue s < numeralValue t.
Proof.
  intros Hs Ht [Hlen | [Hlen Hcmp]].
  - now apply numeral_shorter.
  - apply digits_lexicographic; auto using isNumeral_allDigits.
Qed.

Lemma length_append (p s : string) :
  String.length (String.append p s) = String.length p + String.length s.
Proof. induction p as [|c p IH]; simpl; [reflexivity | now rewrite IH]. Qed.

Lemma compare_append (p s t : string) :
  String.compare (String.append p s) (String.append p t) = String.compare s t.
Proof.
  induction p as [|c p IH]; simpl; [reflexivity |].
  now rewrite ascii_compare_refl.
Qed.

Lemma keyBefore_append (p s t : string) :
  keyBefore (String.append p s) (String.append p t) <-> keyBefore s t.
Proof.
  unfold keyBefore. rewrite !length_append, compare_append.
  split; (intros [H | [H H']]; [left; lia | right; split; [lia | exact H']]).
Qed.

(** X8, keys that end in numbers: on two keys made of one prefix and a
    decimal numeral each (as "scene_9" and "scene_11"), [compareKey] orders
    by the numbers: it answers [1] exactly when the first number is the
    greater one, and [-1] otherwise. *)
Theorem compareKey_numerals (p s t : string) :
  isNumeral s = true -> isNumeral t = true ->
  (compareKey (String.append p s) (String.append p t) = 1%Z <->
   numeralValue t < numeralValue s) /\
  (compareKey (String.append p s) (String.append p t) = (-1)%Z <->
   numeralValue s <= numeralValue t).
Proof.
  intros Hs Ht.
  assert (Hgt : compareKey (String.append p s) (String.append p t) = 1%Z <->
                numeralValue t < numeralValue s).
  { rewrite compareKey_gt, keyBefore_append. split.
    - now apply keyBefore_numerals.
    - intros Hlt. destruct (keyBefore_total t s) as [H | [H | H]].
      + exact H.
      + subst. lia.
      + apply (keyBefore_numerals _ _ Hs Ht) in H. lia. }
  split; [exact Hgt |].
  destruct (compareKey_cases (String.append p s) (String.append p t))
    as [H | H]; rewrite H.
  - apply Hgt in H. split; [discriminate | lia].
  - split; [intros _ | reflexivity].
    destruct (Nat.le_gt_cases (numeralValue s) (numeralValue t)) as [Hle | Hlt];
      [exact Hle |].
    apply Hgt in Hlt. congruence.
Qed.

End Reducer.

(** * The claims on the example heap *)

Abbreviation example_reducer :=
  (NavigationScenesReducer example_route_key example_children).

Ltac by_computation := vm_compute; reflexivity.

Ltac distinct_strings :=
  repeat (apply NoDup_cons; [simpl; intuition discriminate |]);
  apply NoDup_nil.

Ltac not_among := simpl; intuition discriminate.

(** ** Witnesses *)

(** The first call of a session: no previous scenes, no previous state, the
    state 10 with the children a and b. *)
Lemma fresh_completeness_witness :
  same_state None 10 = false /\
  NoDup (map example_route_key (example_children 10)) /\
  nth_error (example_children 10) 1 = Some 2 /\
  exists out a' s,
    example_reducer (mkArray 100 []) 10 None 101 = Normal (out, a') /\
    filter (fun s => negb (isStale s) && Nat.eqb (route s) 2) (elems out)
      = [s] /\
    isStale s = false /\ route s = 2 /\
    index s = Z.of_nat 1 /\
    key s = String.append SCENE_KEY_PREFIX (example_route_key 2).
Proof.
  assert (H1 : same_state None 10 = false) by reflexivity.
  assert (H2 : NoDup (map example_route_key (example_children 10)))
    by distinct_strings.
  assert (H3 : nth_error (example_children 10) 1 = Some 2) by reflexivity.
  split; [exact H1 |]. split; [exact H2 |]. split; [exact H3 |].
  exact (fresh_completeness example_route_key example_children
           (mkArray 100 []) 10 None 101 1 2 H1 H2 H3).
Defined.

(** State 13 has two children with the key "a"; state 10 has none. *)
Lemma duplicate_key_rejection_witness :
  (exists e, example_reducer (mkArray 100 []) 13 (Some 10) 101 = Throw e) /\
  (exists out a',
      example_reducer (mkArray 100 []) 10 (Some 13) 101 = Normal (out, a')).
Proof.
  split.
  - apply (proj1 (duplicate_key_rejection example_route_key example_children
                    (mkArray 100 []) 13 (Some 10) 101))
      with (i := 0) (j := 1) (r1 := 1) (r2 := 4);
      [reflexivity | lia | reflexivity | reflexivity | reflexivity].
  - apply (proj2 (duplicate_key_rejection example_route_key example_children
                    (mkArray 100 []) 10 (Some 13) 101)).
    distinct_strings.
Defined.

(** The second call: state 10 is left for state 11, which drops the route
    a. *)
Lemma output_ordering_witness :
  let out := mkArray 106 [mkScene 105 0 true "scene_a" 1;
                          mkScene 104 0 false "scene_b" 2] in
  same_state (Some 10) 11 = false /\
  example_reducer
    (mkArray 103 [mkScene 101 0 false "scene_a" 1;
                  mkScene 102 1 false "scene_b" 2]) 11 (Some 10) 104
    = Normal (out, 107) /\
  StronglySorted sceneBefore (elems out) /\
  (forall i j x y,
      nth_error (elems out) i = Some x -> nth_error (elems out) j = Some y ->
      (i < j <-> sceneBefore x y) /\
      (i < j -> compareScenes x y = (-1)%Z /\ compareScenes y x = 1%Z)) /\
  (forall i j x y,
      nth_error (elems out) i = Some x -> nth_error (elems out) j = Some y ->
      index x = index y -> key x = "scene_9"%string ->
      key y = "scene_11"%string ->
      i < j).
Proof.
  intros out.
  assert (H1 : same_state (Some 10) 11 = false) by reflexivity.
  assert (H2 : example_reducer
                 (mkArray 103 [mkScene 101 0 false "scene_a" 1;
                               mkScene 102 1 false "scene_b" 2])
                 11 (Some 10) 104 = Normal (out, 107)) by by_computation.
  split; [exact H1 |]. split; [exact H2 |].
  exact (output_ordering example_route_key example_children _ out 11 (Some 10)
           104 107 H1 H2).
Defined.

(** The state 10 again, with the scenes of the first call: both scenes are
    kept. *)
Lemma identity_preservation_witness :
  exists out a',
    example_reducer
      (mkArray 103 [mkScene 101 0 false "scene_a" 1;
                    mkScene 102 1 false "scene_b" 2]) 10 None 104
      = Normal (out, a') /\
    In (mkScene 101 0 false "scene_a" 1) (elems out) /\
    (forall s, In s (elems out) ->
               key s = key (mkScene 101 0 false "scene_a" 1) ->
               s = mkScene 101 0 false "scene_a" 1) /\
    (mkScene 104 0 false "scene_a" 1 <> mkScene 101 0 false "scene_a" 1 ->
     ~ In (mkScene 104 0 false "scene_a" 1) (elems out)).
Proof.
  eapply (identity_preservation example_route_key example_children
            (mkArray 103 [mkScene 101 0 false "scene_a" 1;
                          mkScene 102 1 false "scene_b" 2])
            10 None 104 _ _
            (mkScene 104 0 false "scene_a" 1)
            (mkScene 101 0 false "scene_a" 1)
            [] [mkScene 102 1 false "scene_b" 2]).
  - reflexivity.
  - by_computation.
  - simpl. left. reflexivity.
  - reflexivity.
  - intros q [<- | []]. simpl. discriminate.
  - reflexivity.
Defined.

Lemma stale_retention_witness :
  let out := mkArray 106 [mkScene 105 0 true "scene_a" 1;
                          mkScene 104 0 false "scene_b" 2] in
  example_children 10 = [] ++ 1 :: [2] /\
  example_reducer
    (mkArray 103 [mkScene 101 0 false "scene_a" 1;
                  mkScene 102 1 false "scene_b" 2]) 11 (Some 10) 104
    = Normal (out, 107) /\
  exists s,
    filter (fun s => String.eqb (key s) (sceneKey example_route_key 1)
                     && isStale s) (elems out) = [s] /\
    index s = Z.of_nat (List.length (@nil NavigationRoute)) /\
    route s = 1.
Proof.
  intros out.
  assert (H1 : example_children 10 = [] ++ 1 :: [2]) by reflexivity.
  assert (H2 : forall r', In r' [2] ->
                          example_route_key r' <> example_route_key 1)
    by (intros r' [<- | []]; simpl; discriminate).
  assert (H3 : ~ In (sceneKey example_route_key 1)
                 (map (sceneKey example_route_key) (example_children 11)))
    by not_among.
  assert (H4 : example_reducer
                 (mkArray 103 [mkScene 101 0 false "scene_a" 1;
                               mkScene 102 1 false "scene_b" 2])
                 11 (Some 10) 104 = Normal (out, 107)) by by_computation.
  split; [exact H1 |]. split; [exact H4 |].
  exact (stale_retention example_route_key example_children _ out 11 10
           104 107 [] [2] 1 H1 H2 H3 H4).
Defined.

Lemma stale_revival_witness :
  let p := mkScene 105 0 true "scene_a" 1 in
  let scenes := mkArray 106 [p; mkScene 104 0 false "scene_b" 2] in
  let out := mkArray 109 [mkScene 107 0 false "scene_a" 1;
                          mkScene 108 1 false "scene_b" 2] in
  same_state (Some 11) 10 = false /\
  In p (elems scenes) /\ isStale p = true /\
  In 1 (example_children 10) /\ key p = sceneKey example_route_key 1 /\
  example_reducer scenes 10 (Some 11) 107 = Normal (out, 110) /\
  (forall s, In s (elems out) -> key s = key p -> isStale s = false) /\
  exists s,
    filter (fun s => String.eqb (key s) (key p)) (elems out) = [s] /\
    isStale s = false.
Proof.
  intros p scenes out.
  assert (H1 : same_state (Some 11) 10 = false) by reflexivity.
  assert (H2 : In p (elems scenes)) by (simpl; auto).
  assert (H3 : isStale p = true) by reflexivity.
  assert (H4 : In 1 (example_children 10)) by (simpl; auto).
  assert (H5 : key p = sceneKey example_route_key 1) by reflexivity.
  assert (H6 : example_reducer scenes 10 (Some 11) 107 = Normal (out, 110))
    by by_computation.
  repeat (split; [assumption |]).
  exact (stale_revival example_route_key example_children scenes out 10 (Some 11)
           107 110 p 1 H1 H2 H3 H4 H5 H6).
Defined.

(** Three calls in a row: the route a leaves in the second, and its stale
    scene is still there after the third. *)
Lemma stale_persists_witness :
  let s := mkScene 105 0 true "scene_a" 1 in
  let scenes0 := mkArray 103 [mkScene 101 0 false "scene_a" 1;
                              mkScene 102 1 false "scene_b" 2] in
  let out1 := mkArray 106 [s; mkScene 104 0 false "scene_b" 2] in
  let out2 := mkArray 109 [s; mkScene 104 0 false "scene_b" 2;
                           mkScene 108 1 false "scene_c" 3] in
  example_reducer scenes0 11 (Some 10) 104 = Normal (out1, 107) /\
  example_reducer out1 12 (Some 11) 107 = Normal (out2, 110) /\
  (exists s', In s' (elems out2) /\ key s' = key s /\ isStale s' = true) /\
  (same_state (Some 10) 11 = false -> In s (elems out2)) /\
  ((exists l1 l2, elems out1 = l1 ++ s :: l2 /\
                  forall q, In q l2 -> key q <> key s) ->
   In s (elems out2)).
Proof.
  intros s scenes0 out1 out2.
  assert (H2 : example_reducer scenes0 11 (Some 10) 104 = Normal (out1, 107))
    by by_computation.
  assert (H3 : In s (elems out1)) by (simpl; auto).
  assert (H4 : isStale s = true) by reflexivity.
  assert (H5 : ~ In (key s)
                 (map (sceneKey example_route_key) (example_children 12)))
    by not_among.
  assert (H6 : forall p, Some 11 = Some p ->
                         ~ In (key s) (map (sceneKey example_route_key)
                                         (example_children p)))
    by (intros p [= <-]; not_among).
  assert (H7 : example_reducer out1 12 (Some 11) 107 = Normal (out2, 110))
    by by_computation.
  split; [exact H2 |]. split; [exact H7 |].
  exact (stale_persists example_route_key example_children scenes0 out1 out2
           11 12 (Some 10) (Some 11) 104 107 107 110 s
           H2 H3 H4 H5 H6 H7).
Defined.

Lemma output_keys_unique_witness :
  let scenes := mkArray 103 [mkScene 101 0 false "scene_a" 1;
                             mkScene 102 1 false "scene_b" 2] in
  let out := mkArray 106 [mkScene 105 0 true "scene_a" 1;
                          mkScene 104 0 false "scene_b" 2] in
  same_state (Some 10) 11 = false /\
  example_reducer scenes 11 (Some 10) 104 = Normal (out, 107) /\
  NoDup (map key (elems out)) /\
  exists maps a1,
    classifyScenes example_route_key example_children (elems scenes)
      11 (Some 10) 104 = Normal (maps, a1) /\
    elems out = sort compareScenes (mergeScenes example_route_key maps) /\
    NoDup (JSMap.keys (staleScenes maps)) /\
    NoDup (JSMap.keys (freshScenes maps)) /\
    (forall k, In k (JSMap.keys (staleScenes maps)) ->
               ~ In k (JSMap.keys (freshScenes maps))) /\
    map key (mergeScenes example_route_key maps) =
      JSMap.keys (staleScenes maps) ++ JSMap.keys (freshScenes maps).
Proof.
  intros scenes out.
  assert (H1 : same_state (Some 10) 11 = false) by reflexivity.
  assert (H2 : example_reducer scenes 11 (Some 10) 104 = Normal (out, 107))
    by by_computation.
  split; [exact H1 |]. split; [exact H2 |].
  exact (output_keys_unique example_route_key example_children scenes out
           11 (Some 10) 104 107 H1 H2).
Defined.

Lemma comparator_strictness_witness :
  compareKey "scene_a" "scene_a" = (-1)%Z /\
  strictTotalOrderOn [mkScene 105 0 true "scene_a" 1;
                      mkScene 104 0 false "scene_b" 2].
Proof.
  destruct comparator_strictness as (Hrefl & _ & _ & _ & _ & Hkeys).
  split; [apply Hrefl |]. apply Hkeys. distinct_strings.
Defined.

(** ** Counterexamples to the claims as they were stated *)

(** C2 as stated has no exception for the fast path.  State 13 has two
    children with the key "a"; passed as [nextState] and as [prevState] it is
    never looked at, and the reducer returns the scenes it was given. *)
Lemma duplicate_key_rejection_counterexample :
  nth_error (example_children 13) 0 = Some 1 /\
  nth_error (example_children 13) 1 = Some 4 /\
  example_route_key 1 = example_route_key 4 /\
  example_reducer (mkArray 100 []) 13 (Some 13) 101
    = Normal (mkArray 100 [], 101) /\
  ~ exists e, example_reducer (mkArray 100 []) 13 (Some 13) 101 = Throw e.
Proof.
  repeat (split; [reflexivity |]).
  intros [e H]. vm_compute in H. discriminate H.
Qed.

(** C3 as stated has no exception for the fast path either: there the
    reducer returns the scenes it was given, in the order it was given them,
    here with index 1 before index 0. *)
Lemma output_ordering_counterexample :
  let scenes := mkArray 100 [mkScene 50 1 false "scene_b" 2;
                             mkScene 51 0 false "scene_a" 1] in
  example_reducer scenes 10 (Some 10) 101 = Normal (scenes, 101) /\
  ~ Sorted (fun x y => (index x <= index y)%Z) (elems scenes).
Proof.
  intros scenes. split; [reflexivity |].
  intros H. inversion H as [|? ? _ Hhd]; subst.
  inversion Hhd as [|? ? Hle]; subst. simpl in Hle. lia.
Qed.

(** C4 as stated takes any previous scene with the key of the candidate.
    With two previous scenes under one key [prevScenes] keeps the last one:
    the first, [p], is shallow-equal to the candidate [c], the last is not,
    and the reducer returns the candidate. *)
Lemma identity_preservation_counterexample :
  let p := mkScene 50 0 false "scene_a" 1 in
  let q := mkScene 51 5 false "scene_a" 1 in
  let c := mkScene 100 0 false "scene_a" 1 in
  classifyScenes example_route_key example_children [p; q] 14 None 100
    = Normal (mkMaps [("scene_a"%string, q)] [("scene_a"%string, c)] [], 101) /\
  In p [p; q] /\ key p = key c /\
  areScenesShallowEqual example_route_key p c = true /\
  example_reducer (mkArray 60 [p; q]) 14 None 100
    = Normal (mkArray 101 [c], 102) /\
  ~ In p [c].
Proof.
  intros p q c. repeat (split; [by_computation || (simpl; auto) |]).
  intros [H | []]. discriminate H.
Qed.

(** C5 as stated takes any route of [prevState.children].  State 13 has the
    routes 1 and 4 with the key "a": the stale scene under that key is the
    one of the last route, with index 1, and no stale scene has the index 0
    of route 1. *)
Lemma stale_retention_counterexample :
  let out := mkArray 103 [mkScene 102 1 true "scene_a" 4] in
  nth_error (example_children 13) 0 = Some 1 /\
  ~ In (sceneKey example_route_key 1)
      (map (sceneKey example_route_key) (example_children 15)) /\
  example_reducer (mkArray 100 []) 15 (Some 13) 101 = Normal (out, 104) /\
  ~ exists s,
      In s (elems out) /\ key s = sceneKey example_route_key 1 /\
      isStale s = true /\ index s = Z.of_nat 0.
Proof.
  intros out. split; [reflexivity |]. split; [intros [] |].
  split; [by_computation |].
  intros (s & [<- | []] & _ & _ & H). discriminate H.
Qed.

(** C6 as stated has no exception for the fast path: there the stale scene
    of a route that is in [nextState.children] stays as it is. *)
Lemma stale_revival_counterexample :
  let p := mkScene 50 0 true "scene_a" 1 in
  let scenes := mkArray 100 [p] in
  In p (elems scenes) /\ isStale p = true /\
  In 1 (example_children 14) /\ key p = sceneKey example_route_key 1 /\
  example_reducer scenes 14 (Some 14) 101 = Normal (scenes, 101) /\
  ~ (forall s, In s (elems scenes) -> key s = key p -> isStale s = false).
Proof.
  intros p scenes.
  repeat (split; [reflexivity || (simpl; auto) |]).
  intros H. specialize (H p (or_introl eq_refl) eq_refl). discriminate H.
Qed.

(** C8 as stated: the route a leaves between state 10 and state 11 and its
    scene [s] becomes stale; the next call, from state 11 to state 12, has the
    route a neither in [nextState.children] nor in [prevState.children], and
    [s] is in the array it returns. *)
Lemma stale_lifetime_counterexample :
  let s := mkScene 105 0 true "scene_a" 1 in
  let scenes0 := mkArray 103 [mkScene 101 0 false "scene_a" 1;
                              mkScene 102 1 false "scene_b" 2] in
  let out1 := mkArray 106 [s; mkScene 104 0 false "scene_b" 2] in
  let out2 := mkArray 109 [s; mkScene 104 0 false "scene_b" 2;
                           mkScene 108 1 false "scene_c" 3] in
  In 1 (example_children 10) /\ ~ In 1 (example_children 11) /\
  example_reducer scenes0 11 (Some 10) 104 = Normal (out1, 107) /\
  In s (elems out1) /\ isStale s = true /\ route s = 1 /\
  ~ In 1 (example_children 12) /\ ~ In 1 (example_children 11) /\
  example_reducer out1 12 (Some 11) 107 = Normal (out2, 110) /\
  In s (elems out2).
Proof.
  intros s scenes0 out1 out2.
  assert (Hnot : forall l, In 1 l -> existsb (Nat.eqb 1) l = true).
  { intros l H. apply existsb_exists. exists 1. now split. }
  split; [simpl; auto |].
  split; [intros H; apply Hnot in H; discriminate H |].
  split; [by_computation |].
  split; [simpl; auto |]. split; [reflexivity |]. split; [reflexivity |].
  split; [intros H; apply Hnot in H; discriminate H |].
  split; [intros H; apply Hnot in H; discriminate H |].
  split; [by_computation |].
  simpl. auto.
Qed.

(** C10 as stated ends with: a strict total order only on lists whose scene
    keys are pairwise distinct.  Two scenes with one key and different
    indices are ordered strictly by their indices. *)
Lemma comparator_strictness_counterexample :
  let l := [mkScene 1 0 false "k" 1; mkScene 2 1 false "k" 1] in
  strictTotalOrderOn l /\ ~ NoDup (map key l).
Proof.
  intros l. split.
  - apply strictTotalOrderOn_iff. unfold l. simpl.
    repeat (apply NoDup_cons; [simpl; intuition discriminate |]).
    apply NoDup_nil.
  - intros H. inversion H as [|? ? Hnin _]; subst. apply Hnin. now left.
Qed.

(** ** Witnesses of the further properties *)

(** State 13: the child at position 1 repeats the key "a". *)
Lemma duplicate_key_report_witness :
  example_reducer (mkArray 100 []) 13 None 101 =
    Throw (InvariantViolation
             (fbjsFormat (conflictFormat 1 (sceneKey example_route_key 4)))) /\
  (containsFormatSpec (example_route_key 4) = false ->
   example_reducer (mkArray 100 []) 13 None 101 =
     Throw (InvariantViolation (conflictFormat 1 "scene_a"))).
Proof.
  apply (duplicate_key_report example_route_key example_children
           (mkArray 100 []) 13 None 101 [1] [] 4).
  - reflexivity.
  - reflexivity.
  - distinct_strings.
  - simpl. left. reflexivity.
Defined.

Lemma fresh_scenes_in_order_witness :
  let out := mkArray 109 [mkScene 105 0 true "scene_a" 1;
                          mkScene 104 0 false "scene_b" 2;
                          mkScene 108 1 false "scene_c" 3] in
  example_reducer
    (mkArray 106 [mkScene 105 0 true "scene_a" 1;
                  mkScene 104 0 false "scene_b" 2]) 12 (Some 11) 107
    = Normal (out, 110) /\
  map route (filter (fun s => negb (isStale s)) (elems out))
  = example_children 12 /\
  map index (filter (fun s => negb (isStale s)) (elems out))
  = map Z.of_nat (seq 0 (List.length (example_children 12))).
Proof.
  intros out.
  assert (H : example_reducer
                (mkArray 106 [mkScene 105 0 true "scene_a" 1;
                              mkScene 104 0 false "scene_b" 2])
                12 (Some 11) 107 = Normal (out, 110)) by by_computation.
  split; [exact H |].
  exact (fresh_scenes_in_order example_route_key example_children _ out
           12 (Some 11) 107 110 eq_refl H).
Defined.

Lemma output_scene_origin_witness :
  let scenes := mkArray 103 [mkScene 101 0 false "scene_a" 1;
                             mkScene 102 1 false "scene_b" 2] in
  let s := mkScene 105 0 true "scene_a" 1 in
  let out := mkArray 106 [s; mkScene 104 0 false "scene_b" 2] in
  example_reducer scenes 11 (Some 10) 104 = Normal (out, 107) /\
  In s (elems out) /\
  ((isStale s = false /\
    exists i, nth_error (example_children 11) i = Some (route s) /\
              index s = Z.of_nat i /\
              key s = sceneKey example_route_key (route s)) \/
   (isStale s = true /\
    ~ In (key s) (map (sceneKey example_route_key) (example_children 11)) /\
    ((exists q, In q (elems scenes) /\ isStale q = true /\
                key q = key s /\ index q = index s /\ route q = route s) \/
     (exists p j, Some 10 = Some p /\
                  nth_error (example_children p) j = Some (route s) /\
                  index s = Z.of_nat j /\
                  key s = sceneKey example_route_key (route s))))).
Proof.
  intros scenes s out.
  assert (H1 : example_reducer scenes 11 (Some 10) 104 = Normal (out, 107))
    by by_computation.
  assert (H2 : In s (elems out)) by (simpl; auto).
  split; [exact H1 |]. split; [exact H2 |].
  exact (output_scene_origin example_route_key example_children scenes out
           11 (Some 10) 104 107 s eq_refl H1 H2).
Defined.

(** The scenes of a and b are the previous objects, the scene of c and the
    array are new. *)
Lemma output_object_provenance_witness :
  let scenes := mkArray 106 [mkScene 105 0 true "scene_a" 1;
                             mkScene 104 0 false "scene_b" 2] in
  let out := mkArray 109 [mkScene 105 0 true "scene_a" 1;
                          mkScene 104 0 false "scene_b" 2;
                          mkScene 108 1 false "scene_c" 3] in
  example_reducer scenes 12 (Some 11) 107 = Normal (out, 110) /\
  107 <= array_ref out < 110 /\
  forall s, In s (elems out) ->
            In s (elems scenes) \/ 107 <= scene_ref s < array_ref out.
Proof.
  intros scenes out.
  assert (H : example_reducer scenes 12 (Some 11) 107 = Normal (out, 110))
    by by_computation.
  split; [exact H |].
  exact (output_object_provenance example_route_key example_children
           scenes out 12 (Some 11) 107 110 eq_refl H).
Defined.

Lemma prevState_without_removed_route_witness :
  let scenes := mkArray 106 [mkScene 105 0 true "scene_a" 1;
                             mkScene 104 0 false "scene_b" 2] in
  example_reducer scenes 10 (Some 11) 107 = example_reducer scenes 10 None 107.
Proof.
  intros scenes.
  apply (prevState_without_removed_route example_route_key example_children
           scenes 10 11 107).
  - discriminate.
  - intros r [<- | []]. simpl. right. left. reflexivity.
Defined.

(** The states 20 and 21 have the same children: going from 20 to 21 keeps
    both scene objects. *)
Lemma reconcile_same_children_witness :
  let out1 := mkArray 103 [mkScene 101 0 false "scene_a" 1;
                           mkScene 102 1 false "scene_b" 2] in
  NavigationScenesReducer example_route_key example_children_again
    (mkArray 100 []) 20 None 101 = Normal (out1, 104) /\
  exists out2 a2,
    NavigationScenesReducer example_route_key example_children_again
      out1 21 (Some 20) 104 = Normal (out2, a2) /\
    elems out2 = elems out1.
Proof.
  intros out1.
  assert (H : NavigationScenesReducer example_route_key
                example_children_again (mkArray 100 []) 20 None 101
              = Normal (out1, 104)) by by_computation.
  split; [exact H |].
  apply (reconcile_same_children example_route_key example_children_again
           (mkArray 100 []) out1 20 21 None 101 104 104 eq_refl H).
  - discriminate.
  - reflexivity.
Defined.

(** The route b moves from position 1 to position 0: its scene is a new
    object. *)
Lemma changed_scene_is_new_witness :
  let scenes := mkArray 103 [mkScene 101 0 false "scene_a" 1;
                             mkScene 102 1 false "scene_b" 2] in
  exists out a',
    example_reducer scenes 11 (Some 10) 104 = Normal (out, a') /\
    In (mkScene (104 + 0) (Z.of_nat 0) false
          (sceneKey example_route_key 2) 2) (elems out).
Proof.
  intros scenes.
  apply (changed_scene_is_new example_route_key example_children scenes
           11 (Some 10) 104 0 2).
  - reflexivity.
  - distinct_strings.
  - reflexivity.
  - right. exists [mkScene 101 0 false "scene_a" 1],
      (mkScene 102 1 false "scene_b" 2), [].
    split; [reflexivity |]. split; [reflexivity |].
    split; [intros q [] |]. left. simpl. discriminate.
Defined.

Lemma compareKey_numerals_witness :
  (compareKey "scene_11" "scene_9" = 1%Z <->
   numeralValue "9" < numeralValue "11") /\
  (compareKey "scene_11" "scene_9" = (-1)%Z <->
   numeralValue "11" <= numeralValue "9").
Proof.
  exact (compareKey_numerals "scene_" "11" "9" eq_refl eq_refl).
Defined.

(** Why the same object needs a condition: two stale previous scenes under
    one key, as a call on the fast path can hand back.  The next call keeps
    the last of them only. *)
Lemma stale_persists_last_of_key :
  let s := mkScene 50 0 true "scene_a" 1 in
  let q := mkScene 51 3 true "scene_a" 1 in
  example_reducer (mkArray 100 [s; q]) 11 (Some 11) 101
    = Normal (mkArray 100 [s; q], 101) /\
  example_reducer (mkArray 100 [s; q]) 12 (Some 11) 101
    = Normal (mkArray 103 [mkScene 101 0 false "scene_b" 2;
                           mkScene 102 1 false "scene_c" 3; q], 104).
Proof. split; by_computation. Qed.
